(** * Conway's Game of Life on an LED matrix: a model of [game_of_life.py]

    The script keeps everything inside [main]: it builds the matrix driver,
    seeds a boolean grid, and then loops: count neighbours with rolled sums,
    apply the life rule, reseed on extinction or on a repeated grid, draw the
    grid as a white-on-black frame, push it, sleep.  The development below
    embeds each of these pieces as a function on lists (rows of cells), the
    loop as explicit state passing over an event trace, the random generator
    as a cursor over a sequence of draws and the interrupt signal as a
    schedule of arrivals. *)

From Stdlib Require Import ZArith QArith Lia Ascii.
From stdpp Require Import base list numbers strings.

Open Scope Z_scope.

(** ** Two-dimensional arrays *)

(** A numpy array of shape (H, W) is a list of H rows of W entries. *)
Abbreviation Grid := (list (list bool)).
Abbreviation Counts := (list (list Z)).

Definition shape {A} (H W : nat) (a : list (list A)) : Prop :=
  length a = H ∧ Forall (λ row, length row = W) a.

Definition cell {A} (a : list (list A)) (r c : nat) : option A :=
  row ← a !! r; row !! c.

Definition map2d {A B} (f : A → B) (a : list (list A)) : list (list B) :=
  (λ row : list A, f <$> row) <$> a.

Definition zip2d {A B C} (f : A → B → C)
    (a : list (list A)) (b : list (list B)) : list (list C) :=
  zip_with (zip_with f) a b.

(** ** [np.roll] along one axis

    numpy reduces the shift modulo the axis length ([offset %= n or 1]) and,
    when the offset is not zero, writes [a[:-offset]] to [result[offset:]]
    and [a[-offset:]] to [result[:offset]]. *)
Definition roll {A} (shift : Z) (a : list A) : list A :=
  let n := length a in
  let offset := Z.to_nat (shift `mod` (if decide (n = 0%nat) then 1 else Z.of_nat n)) in
  if decide (offset = 0%nat) then a
  else drop (n - offset) a ++ take (n - offset) a.

(** [np.roll(a, dy, 0)] rolls the rows, [np.roll(a, dx, 1)] rolls inside each row. *)
Definition roll_axis0 {A} (dy : Z) (a : list (list A)) : list (list A) := roll dy a.
Definition roll_axis1 {A} (dx : Z) (a : list (list A)) : list (list A) := roll dx <$> a.

(** ** The neighbour count (lines 51-54) *)

(** The generator's offsets, in the order [for dy in (-1,0,1) for dx in (-1,0,1)]
    with the filter [if not (dx == 0 and dy == 0)]. *)
Definition offsets : list (Z * Z) :=
  filter (λ p, ¬ (p.2 = 0 ∧ p.1 = 0))
         (dy ← [-1; 0; 1]; dx ← [-1; 0; 1]; [(dy, dx)]).

Definition rolled (grid : Grid) : list Grid :=
  (λ p, roll_axis1 p.2 (roll_axis0 p.1 grid)) <$> offsets.

(** Python's [sum] starts from the integer [0]; [0 + a] broadcasts over the
    boolean array [a] and gives an integer array, to which the remaining
    boolean arrays are added cell by cell.  Counts never exceed 8, far from
    the int64 range, so they are plain integers here. *)
Definition scalar_add (z : Z) (a : Grid) : Counts := map2d (λ b, z + Z.b2z b) a.
Definition array_add (acc : Counts) (a : Grid) : Counts := zip2d (λ n b, n + Z.b2z b) acc a.

Definition py_sum (arrays : list Grid) : Counts :=
  match arrays with
  | [] => []   (* not reached: the generator yields eight arrays *)
  | a :: rest => foldl array_add (scalar_add 0 a) rest
  end.

Definition neighbors (grid : Grid) : Counts := py_sum (rolled grid).

(** ** The life rule (line 56)

    [new_grid = (neighbors == 3) | (grid & (neighbors == 2))] *)
Definition array_eq_scalar (a : Counts) (k : Z) : Grid := map2d (λ n, n =? k) a.
Definition array_and (a b : Grid) : Grid := zip2d andb a b.
Definition array_or (a b : Grid) : Grid := zip2d orb a b.

Definition step (grid : Grid) : Grid :=
  let nb := neighbors grid in
  array_or (array_eq_scalar nb 3) (array_and grid (array_eq_scalar nb 2)).

Definition ones (H W : nat) : Grid := replicate H (replicate W true).
Definition zeros_bool (H W : nat) : Grid := replicate H (replicate W false).

(** ** Seeding (lines 36-37 and 60)

    [rng.random((H, W))] fills an H x W array, row by row, with draws from
    [0, 1).  The generator is a sequence of draws with a cursor; a draw and
    the density are finite floats, which compare as the rationals they are. *)
Record Rng := mkRng { draws : nat → Q; cursor : nat }.

Definition rng_random (H W : nat) (gen : Rng) : list (list Q) * Rng :=
  ((λ r, (λ c, draws gen (cursor gen + r * W + c)%nat) <$> seq 0 W) <$> seq 0 H,
   mkRng (draws gen) (cursor gen + H * W)).

Definition Qltb (x y : Q) : bool := negb (Qle_bool y x).

Definition array_lt_scalar (a : list (list Q)) (d : Q) : Grid := map2d (λ x, Qltb x d) a.

(** [rng.random((H, W)) < args.seed] *)
Definition seed_grid (H W : nat) (density : Q) (gen : Rng) : Grid * Rng :=
  let '(u, gen') := rng_random H W gen in (array_lt_scalar u density, gen').

(** ** The simulation state and one generation (lines 51-63) *)

Record Sim := mkSim { grid : Grid; prev : Grid; rng : Rng }.

(** [a.any()] and [np.array_equal(a, b)]. *)
Definition any (a : Grid) : bool := existsb (existsb id) a.
Definition array_equal (a b : Grid) : bool := bool_decide (a = b).

(** The test of line 59. *)
Definition degenerate (new_grid prev : Grid) : bool :=
  negb (any new_grid) || array_equal new_grid prev.

Definition advance (H W : nat) (density : Q) (s : Sim) : Sim :=
  let new_grid := step (grid s) in
  let '(new_grid, gen) :=
    if degenerate new_grid (prev s) then seed_grid H W density (rng s)
    else (new_grid, rng s) in
  {| grid := new_grid; prev := grid s; rng := gen |}.

(** ** Drawing (lines 66-67)

    [frame = np.zeros((H, W, 3))] then [frame[grid] = [255, 255, 255]]: every
    pixel selected by the boolean mask receives the three channel values. *)
Abbreviation Pixel := (list Z).
Abbreviation Frame := (list (list Pixel)).

Definition zeros (H W : nat) : Frame := replicate H (replicate W (replicate 3 0)).

Definition mask_assign (frame : Frame) (mask : Grid) (v : Pixel) : Frame :=
  zip2d (λ px (m : bool), if m then v else px) frame mask.

Definition render (H W : nat) (grid : Grid) : Frame :=
  mask_assign (zeros H W) grid [255; 255; 255].

(** ** The program (lines 7-73) *)

Record Args := mkArgs {
  rows : Z; cols : Z; chain : Z; parallel : Z; hardware_mapping : string;
  gpio_slowdown : Z; brightness : Z; seed : Q; fps : Z }.

(** What the matrix driver reports once constructed. *)
Record Matrix := mkMatrix { width : nat; height : nat }.

(** The calls that reach the outside world, in program order. *)
Inductive Event :=
  | RGBMatrix (options : Args)
  | SetImage (img : Frame)
  | Sleep (seconds : Q)
  | Clear.

Record Loop := mkLoop { sim : Sim; running : bool; trace : list Event }.

(** The handler [_stop] of lines 42-44, run when SIGINT arrives. *)
Definition _stop (st : Loop) : Loop :=
  {| sim := sim st; running := false; trace := trace st |}.

Definition deliver (sigint : bool) (st : Loop) : Loop :=
  if sigint then _stop st else st.

(** ** Doubles

    A finite double is written as the rational it stands for.  [double x] is
    the double nearest to the positive rational [x], ties going to the even
    mantissa and small values to the subnormal grid of 2^-1074: the value of
    a float literal, and of an IEEE 754 division or subtraction whose exact
    result is [x]. *)

(** The fraction [(p / q) / 2 ^ t]. *)
Definition scaled (p q t : Z) : Z * Z :=
  if 0 <=? t then (p, q * 2 ^ t) else (p * 2 ^ (- t), q).

(** The integer part of the binary logarithm of [p / q]. *)
Definition ilog2 (p q : Z) : Z :=
  let e0 := Z.log2 p - Z.log2 q in
  let '(n, d) := scaled p q e0 in
  if d <=? n then e0 else e0 - 1.

(** Mantissa and exponent of the double nearest to [p / q]. *)
Definition nearest (p q : Z) : Z * Z :=
  let t := Z.max (ilog2 p q - 52) (-1074) in
  let '(n, d) := scaled p q t in
  let m := n / d in
  let r := n mod d in
  (if 2 * r <? d then m
   else if d <? 2 * r then m + 1
   else if Z.even m then m else m + 1,
   t).

Definition double (x : Q) : Q :=
  let '(m, t) := nearest (Qnum x) (Z.pos (Qden x)) in
  if 0 <=? t then inject_Z (m * 2 ^ t) else Qred (m # Z.to_pos (2 ^ (- t))).

(** Every double is a whole number of steps of 2^-1074, the smallest
    positive double. *)
Definition on_grid (x : Q) : Prop := ∃ k : Z, (x == k # Z.to_pos (2 ^ 1074))%Q.

(** The conversion of an int [n >= 1] to a float: the nearest double, and
    OverflowError ([None]) when that would be 2^1024. *)
Definition float_of_int (n : Z) : option Q :=
  let x := double (inject_Z n) in
  if Qle_bool (inject_Z (2 ^ 1024)) x then None else Some x.

(** [frame_delay = 1.0 / max(1, args.fps)]: the int is converted to a float,
    which raises OverflowError for an int of 2^1024 - 2^970 or more, and the
    division is rounded to the nearest double. *)
Definition frame_delay (args : Args) : option Q :=
  x ← float_of_int (Z.max 1 (fps args)); Some (double (1 / x)).

Arguments frame_delay : simpl never.

(** How a run ends: [main] returned, an exception left it, or the schedule
    of signals ran out with the loop still going. *)
Inductive Outcome :=
  | Returned (events : list Event)
  | Raised (events : list Event)
  | Looping (events : list Event).

Definition events_of (o : Outcome) : list Event :=
  match o with Returned t | Raised t | Looping t => t end.

Section program.
(** The driver library is outside the repository: [driver] stands for
    [RGBMatrix(options=...)] and the dimensions the object reports. *)
Variable driver : Args → Matrix.
Variable args : Args.

(** The body of the [while] loop; [delay] is the value of [frame_delay]. *)
Definition iteration (delay : Q) (st : Loop) : Loop :=
  let m := driver args in
  let s := advance (height m) (width m) (seed args) (sim st) in
  let frame := render (height m) (width m) (grid s) in
  {| sim := s; running := running st;
     trace := trace st ++ [SetImage frame; Sleep delay] |}.

(** [while running: ...].  The schedule says, for each iteration in turn,
    whether SIGINT arrives while it runs; the handler only clears the flag,
    which is read again at the top of the loop. *)
Fixpoint run_loop (delay : Q) (sched : list bool) (st : Loop) : Loop :=
  match sched with
  | [] => st
  | sigint :: rest =>
      if running st then run_loop delay rest (deliver sigint (iteration delay st))
      else st
  end.

(** [main]: [early] says whether SIGINT arrives between the installation of
    the handler and the first test of the loop.  When line 47 raises, the
    exception leaves [main] with the matrix constructed and nothing else
    done: there is no handler and no [finally] around it. *)
Definition main (gen : Rng) (early : bool) (sched : list bool) : Outcome :=
  let m := driver args in
  let '(g, gen) := seed_grid (height m) (width m) (seed args) gen in
  let st := {| sim := {| grid := g; prev := g; rng := gen |};
               running := true; trace := [RGBMatrix args] |} in
  let st := deliver early st in
  match frame_delay args with
  | None => Raised (trace st)
  | Some delay =>
      let st := run_loop delay sched st in
      if running st then Looping (trace st)
      else Returned (trace st ++ [Clear])
  end.

End program.

(** ** Reading a run

    The number of iterations a schedule lets the loop make (the iteration
    during which SIGINT arrives is the last one), whether the schedule
    cancels the loop at all, the frames pushed by [n] iterations, and the
    events those frames leave in the trace. *)
Fixpoint iterations (sched : list bool) : nat :=
  match sched with
  | [] => 0
  | sigint :: rest => S (if sigint then 0 else iterations rest)
  end.

Definition cancelled (sched : list bool) : bool := existsb id sched.

Fixpoint frames (H W : nat) (density : Q) (n : nat) (s : Sim) : list Frame :=
  match n with
  | O => []
  | S n => let s' := advance H W density s in
           render H W (grid s') :: frames H W density n s'
  end.

Definition pushes (delay : Q) (fs : list Frame) : list Event :=
  fs ≫= λ f, [SetImage f; Sleep delay].

Definition sleeps (t : list Event) : list Q :=
  t ≫= λ e, match e with Sleep q => [q] | _ => [] end.

(** The pacing of the specification: sleep for what is left of the budget
    once [elapsed] is spent, and not at all when nothing is left. *)
Definition paced_sleep (budget elapsed : Q) : list Event :=
  if Qltb elapsed budget then [Sleep (budget - elapsed)] else [].

(** A configuration rejected at startup: [main] returns having called nothing. *)
Definition rejected (o : Outcome) : Prop := o = Returned [].

(** Index [i] moved by [d] places on a ring of [n] places. *)
Definition wrap (n : nat) (i : nat) (d : Z) : nat :=
  Z.to_nat ((Z.of_nat i + d) `mod` Z.of_nat n).

(** ** The neighbourhood

    The positions the eight directions lead to from a cell, row and column
    indices wrapping modulo [H] and [W], and the number of live cells found
    there, one look per direction: on a board with fewer than three rows or
    columns a cell reached by several directions counts several times. *)
Definition directions : list (Z * Z) :=
  [(-1, -1); (-1, 0); (-1, 1); (0, -1); (0, 1); (1, -1); (1, 0); (1, 1)].

Definition alive (g : Grid) (r c : nat) : bool := default false (cell g r c).

Definition adjacent (H W r c : nat) : list (nat * nat) :=
  (λ d, (wrap H r d.1, wrap W c d.2)) <$> directions.

Definition count_live (g : Grid) (ps : list (nat * nat)) : Z :=
  Z.of_nat (length (filter (λ p, alive g p.1 p.2 = true) ps)).

Definition live_neighbors (H W : nat) (g : Grid) (r c : nat) : Z :=
  count_live g (adjacent H W r c).

(** The standard rule: born on 3, survives on 2 or 3. *)
Definition life_rule (is_alive : bool) (n : Z) : Prop :=
  n = 3 ∨ (is_alive = true ∧ n = 2).

(** The cells adjacent to [(r, c)], each listed once. *)
Definition distinct_adjacent (H W r c : nat) : list (nat * nat) :=
  remove_dups (adjacent H W r c).

Definition distinct_live_neighbors (H W : nat) (g : Grid) (r c : nat) : Z :=
  count_live g (distinct_adjacent H W r c).


(** ** Boards used as examples

    A board is written as its rows, [#] for a live cell. *)
Fixpoint row_of (s : string) : list bool :=
  match s with
  | EmptyString => []
  | String ch rest => Ascii.eqb ch "#"%char :: row_of rest
  end.

Definition board (rows : list string) : Grid := row_of <$> rows.

Definition blinker : Grid :=
  board [".....";
         "..#..";
         "..#..";
         "..#..";
         "....."].

Definition corner3 : Grid :=
  board ["#..";
         "...";
         "..#"].

Definition block : Grid :=
  board ["....";
         ".##.";
         ".##.";
         "...."].

Definition tromino : Grid :=
  board ["....";
         ".#..";
         ".##.";
         "...."].

Definition glider : Grid :=
  board [".#....";
         "..#...";
         "###...";
         "......";
         "......";
         "......"].

Definition lonely : Grid :=
  board ["....";
         ".#..";
         "....";
         "...."].

(** A generator whose every draw is [q]. *)
Definition constant_rng (q : Q) : Rng := {| draws := λ _, q; cursor := 0 |}.

(** A generator whose sixth draw is 0, the other draws of the first sixteen
    1/2, and every later draw [q]: on a 4 x 4 panel with density 1/4 the
    first seeding is [lonely]. *)
Definition lonely_rng (q : Q) : Rng :=
  {| draws := λ n, if (n =? 5)%nat then 0%Q else if (n <? 16)%nat then (1 # 2)%Q else q;
     cursor := 0 |}.

(** [n] generations of the bare rule, and of the simulation. *)
Definition generations (n : nat) (g : Grid) : Grid := Nat.iter n step g.

Definition run (H W : nat) (density : Q) (n : nat) (s : Sim) : Sim :=
  Nat.iter n (advance H W density) s.

(** A 4 x 4 panel, and the default command line but for the density. *)
Definition panel4 (_ : Args) : Matrix := {| width := 4; height := 4 |}.

(** The simulation state [main] enters its loop with: the seeded grid, its
    copy as previous grid, and the generator after the seeding. *)
Definition first_state (H W : nat) (density : Q) (gen : Rng) : Sim :=
  let '(g, gen') := seed_grid H W density gen in
  {| grid := g; prev := g; rng := gen' |}.

(** The double 1.0 / 30. *)
Definition thirtieth : Q := 4803839602528529 # 144115188075855872.

Definition args_with_seed (density : Q) : Args :=
  {| rows := 16; cols := 32; chain := 1; parallel := 1;
     hardware_mapping := "adafruit-hat"; gpio_slowdown := 4; brightness := 80;
     seed := density; fps := 30 |}.

(** The default command line but for the frame rate. *)
Definition args_with_fps (n : Z) : Args :=
  {| rows := 16; cols := 32; chain := 1; parallel := 1;
     hardware_mapping := "adafruit-hat"; gpio_slowdown := 4; brightness := 80;
     seed := 1 # 4; fps := n |}.

(** * The camera script, [cam_to_matrix_16x32.py]

    The second program of the repository streams camera frames to the same
    kind of matrix.  Its resampling and geometry come from PIL and its frames
    from the camera: they are parameters here.  What the script itself
    decides is modelled: the order of the image operations, the letterbox
    placement, the frame limiter and the shutdown. *)
Module cam_to_matrix.

(** A PIL image: its size and its rows of RGB pixels. *)
Record Image := mkImage { img_width : nat; img_height : nat; img_data : Frame }.

Definition wf (img : Image) : Prop :=
  shape (img_height img) (img_width img) (img_data img).

(** [Image.new("RGB", (w, h))]: a black canvas. *)
Definition new_rgb (w h : nat) : Image :=
  {| img_width := w; img_height := h; img_data := zeros h w |}.

(** [canvas.paste(img2, (x, y))]: the pixels of [img2] replace those of the
    canvas from column [x] and row [y] on; the canvas keeps its size. *)
Definition paste (canvas img2 : Image) (x y : Z) : Image :=
  {| img_width := img_width canvas; img_height := img_height canvas;
     img_data :=
       imap (λ r row,
         imap (λ c px,
           let j := Z.of_nat r - y in
           let i := Z.of_nat c - x in
           if decide (0 ≤ j ∧ 0 ≤ i)
           then default px (cell (img_data img2) (Z.to_nat j) (Z.to_nat i))
           else px) row)
         (img_data canvas) |}.

Record Args := mkArgs {
  rows : Z; cols : Z; chain : Z; parallel : Z; hardware_mapping : string;
  gpio_slowdown : Z; brightness : Z; fps_limit : Z; rotate : Z;
  mirror : bool; fit : string }.

Inductive Event :=
  | RGBMatrix (options : Args)
  | Picamera2_start
  | SetImage (img : Image)
  | Sleep (seconds : Q)
  | Clear
  | Picamera2_stop.

(** What one turn of the loop meets: the camera frame ([None] when
    [capture_array] raises), the time [time.time() - t0] the clock shows
    once the frame is pushed, and whether SIGINT arrives meanwhile. *)
Record Tick := mkTick { capture_array : option Image; dt : Q; sigint : bool }.

Inductive Outcome :=
  | Returned (events : list Event)
  | Raised (events : list Event)
  | Looping (events : list Event).

Definition events_of (o : Outcome) : list Event :=
  match o with Returned t | Raised t | Looping t => t end.

(** [target_dt = 1.0 / max(1, args.fps_limit)], as in the other script:
    OverflowError for an int too large for a float, a double otherwise. *)
Definition target_dt (args : Args) : option Q :=
  x ← float_of_int (Z.max 1 (fps_limit args)); Some (double (1 / x)).

Arguments target_dt : simpl never.

Section script.
(** PIL's [ImageOps.fit], [Image.thumbnail] (on a copy), [ImageOps.mirror]
    and [Image.rotate(angle, expand=True)], and the matrix driver. *)
Variable ImageOps_fit : Image → nat → nat → Image.
Variable thumbnail : Image → nat → nat → Image.
Variable ImageOps_mirror : Image → Image.
Variable img_rotate : Z → Image → Image.
Variable driver : Args → Matrix.

(** [fit_frame] (lines 33-44). *)
Definition fit_frame (img : Image) (w h : nat) (mode : string) : Image :=
  if String.eqb mode "crop" then ImageOps_fit img w h
  else
    let img2 := thumbnail img w h in
    let canvas := new_rgb w h in
    let x := (Z.of_nat w - Z.of_nat (img_width img2)) / 2 in
    let y := (Z.of_nat h - Z.of_nat (img_height img2)) / 2 in
    paste canvas img2 x y.

Variable args : Args.

(** Lines 85-92: mirror, rotate, fit. *)
Definition prepare (img : Image) : Image :=
  let img := if mirror args then ImageOps_mirror img else img in
  let img := if decide (rotate args = 0) then img else img_rotate (rotate args) img in
  fit_frame img (width (driver args)) (height (driver args)) (fit args).

(** Lines 97-99, the limiter: the doubles [dt] and [target] are compared
    as they are, and the difference passed to [time.sleep] is the double
    nearest to the exact one. *)
Definition limiter (target dt : Q) : list Event :=
  if Qltb dt target then [Sleep (double (target - dt))] else [].

(** The [while] loop inside [try]: it ends when the flag is seen cleared, or
    when the camera raises. *)
Fixpoint run_loop (target : Q) (ticks : list Tick) (running : bool)
    (trace : list Event) : Outcome :=
  match ticks with
  | [] => if running then Looping trace else Returned trace
  | tk :: rest =>
      if running then
        match capture_array tk with
        | None => Raised trace
        | Some frame =>
            run_loop target rest (negb (sigint tk))
              (trace ++ SetImage (prepare frame) :: limiter target (dt tk))
        end
      else Returned trace
  end.

(** The [finally] block (lines 101-103) runs however the loop was left. *)
Definition finally (o : Outcome) : Outcome :=
  match o with
  | Returned t => Returned (t ++ [Clear; Picamera2_stop])
  | Raised t => Raised (t ++ [Clear; Picamera2_stop])
  | Looping t => Looping t
  end.

(** [main] (lines 46-103); [early] as in the other script.  The warm-up
    sleeps for the double 0.2.  Line 79 stands before the [try]: when it
    raises, the [finally] block is not run. *)
Definition main (early : bool) (ticks : list Tick) : Outcome :=
  let trace := [RGBMatrix args; Picamera2_start; Sleep (double (1 # 5))] in
  match target_dt args with
  | None => Raised trace
  | Some target => finally (run_loop target ticks (negb early) trace)
  end.

End script.

End cam_to_matrix.

(** What the loop may add to the trace: pushed images and sleeps. *)
Definition loop_event (e : cam_to_matrix.Event) : Prop :=
  match e with
  | cam_to_matrix.SetImage _ | cam_to_matrix.Sleep _ => True
  | _ => False
  end.

(** [time.sleep] raises ValueError for a negative argument: a sleep is in
    order when it is asked for a positive time. *)
Definition positive_sleep (e : cam_to_matrix.Event) : Prop :=
  match e with
  | cam_to_matrix.Sleep s => (0 < s)%Q
  | _ => True
  end.

(** The turns that let the loop go on: a frame is captured and no SIGINT
    arrives. *)
Definition quiet (tk : cam_to_matrix.Tick) : Prop :=
  is_Some (cam_to_matrix.capture_array tk) ∧ cam_to_matrix.sigint tk = false.

(** A 2 x 1 image, and a stand-in for [thumbnail] on images that already
    fit (PIL leaves those as they are). *)
Definition two_pixels : cam_to_matrix.Image :=
  {| cam_to_matrix.img_width := 2; cam_to_matrix.img_height := 1;
     cam_to_matrix.img_data := [[[10; 20; 30]; [40; 50; 60]]] |}.

Definition keep_size (img : cam_to_matrix.Image) (_ _ : nat) : cam_to_matrix.Image := img.

Definition camera_defaults : cam_to_matrix.Args :=
  {| cam_to_matrix.rows := 16; cam_to_matrix.cols := 32; cam_to_matrix.chain := 1;
     cam_to_matrix.parallel := 1; cam_to_matrix.hardware_mapping := "adafruit-hat";
     cam_to_matrix.gpio_slowdown := 4; cam_to_matrix.brightness := 70;
     cam_to_matrix.fps_limit := 30; cam_to_matrix.rotate := 0;
     cam_to_matrix.mirror := false; cam_to_matrix.fit := "crop" |}.

Definition panel5x4 (_ : cam_to_matrix.Args) : Matrix := {| width := 5; height := 4 |}.
(** * Properties *)

Example offsets_eval :
  offsets = [(-1,-1); (-1,0); (-1,1); (0,-1); (0,1); (1,-1); (1,0); (1,1)].
Proof. reflexivity. Qed.

Example roll_eval : roll 1 [1; 2; 3; 4] = [4; 1; 2; 3] ∧ roll (-1) [1; 2; 3; 4] = [2; 3; 4; 1].
Proof. split; reflexivity. Qed.

(** ** Lookups in two-dimensional arrays *)

Section arrays.
Context {A B C : Type}.
Implicit Types (a : list (list A)) (b : list (list B)).

Lemma cell_map2d (f : A → B) a r c : cell (map2d f a) r c = f <$> cell a r c.
Proof.
  unfold cell, map2d. rewrite list_lookup_fmap.
  destruct (a !! r) as [row|]; simpl; [apply list_lookup_fmap | done].
Qed.

Lemma cell_zip2d (f : A → B → C) a b r c :
  cell (zip2d f a b) r c = (x ← cell a r c; y ← cell b r c; Some (f x y)).
Proof.
  unfold cell, zip2d. rewrite lookup_zip_with.
  destruct (a !! r) as [ra|]; simpl; [|done].
  destruct (b !! r) as [rb|]; simpl.
  - apply lookup_zip_with.
  - by destruct (ra !! c).
Qed.

Lemma shape_map2d (f : A → B) H W a : shape H W a → shape H W (map2d f a).
Proof.
  intros [Hl Hr]. split; unfold map2d.
  - by rewrite length_fmap.
  - rewrite Forall_lookup in Hr. apply Forall_fmap, Forall_lookup.
    intros i row Hrow. simpl. rewrite length_fmap. eauto.
Qed.

Lemma shape_zip2d (f : A → B → C) H W a b :
  shape H W a → shape H W b → shape H W (zip2d f a b).
Proof.
  intros [Hla Hra] [Hlb Hrb]. split; unfold zip2d.
  - rewrite length_zip_with. lia.
  - apply Forall_lookup. intros i row Hin.
    apply lookup_zip_with_Some in Hin as (ra & rb & -> & Ha & Hb).
    rewrite length_zip_with.
    rewrite Forall_lookup in Hra. rewrite Forall_lookup in Hrb.
    rewrite (Hra i ra Ha), (Hrb i rb Hb). lia.
Qed.

Lemma shape_row H W a r row : shape H W a → a !! r = Some row → length row = W.
Proof.
  intros [_ Hr] Hrow. rewrite Forall_lookup in Hr. by eapply Hr.
Qed.

Lemma cell_is_Some H W a r c :
  shape H W a → (r < H)%nat → (c < W)%nat → is_Some (cell a r c).
Proof.
  intros Hs Hr Hc. unfold cell.
  destruct (lookup_lt_is_Some_2 a r) as [row Hrow]; [destruct Hs; lia|].
  rewrite Hrow. simpl. apply lookup_lt_is_Some_2.
  rewrite (shape_row _ _ _ _ _ Hs Hrow). lia.
Qed.

Lemma cell_lt a r c x : cell a r c = Some x → (r < length a)%nat.
Proof.
  unfold cell. destruct (a !! r) eqn:E; [|done].
  intros _. by eapply lookup_lt_Some.
Qed.

Lemma cell_in_range H W a r c x :
  shape H W a → cell a r c = Some x → (r < H)%nat ∧ (c < W)%nat.
Proof.
  intros Hs Hcell. unfold cell in Hcell.
  destruct (a !! r) as [row|] eqn:Hrow; [|done]. simpl in Hcell.
  split.
  - destruct Hs as [<- _]. by eapply lookup_lt_Some.
  - rewrite <- (shape_row _ _ _ _ _ Hs Hrow). by eapply lookup_lt_Some.
Qed.

End arrays.

(** Two arrays of one shape that agree cell by cell are equal. *)
Lemma shape_ext {A} H W (a b : list (list A)) :
  shape H W a → shape H W b →
  (∀ r c, (r < H)%nat → (c < W)%nat → cell a r c = cell b r c) → a = b.
Proof.
  intros Ha Hb Hcell. apply list_eq. intros r.
  destruct (decide (r < H)%nat) as [Hr|Hr].
  - destruct (lookup_lt_is_Some_2 a r) as [ra Hra]; [destruct Ha; lia|].
    destruct (lookup_lt_is_Some_2 b r) as [rb Hrb]; [destruct Hb; lia|].
    rewrite Hra, Hrb. f_equal. apply list_eq. intros c.
    pose proof (shape_row _ _ _ _ _ Ha Hra) as La.
    pose proof (shape_row _ _ _ _ _ Hb Hrb) as Lb.
    destruct (decide (c < W)%nat) as [Hc|Hc].
    + specialize (Hcell r c Hr Hc). unfold cell in Hcell.
      by rewrite Hra, Hrb in Hcell.
    + rewrite !lookup_ge_None_2; [done | lia | lia].
  - destruct Ha, Hb. rewrite !lookup_ge_None_2; [done | lia | lia].
Qed.

(** ** What [np.roll] does to an index *)

Lemma wrap_lt n i d : (0 < n)%nat → (wrap n i d < n)%nat.
Proof.
  intros Hn. unfold wrap.
  pose proof (Z.mod_pos_bound (Z.of_nat i + d) (Z.of_nat n)). lia.
Qed.

Lemma length_roll {A} (s : Z) (a : list A) : length (roll s a) = length a.
Proof.
  unfold roll. destruct (decide _); [done|].
  rewrite length_app, length_drop, length_take. lia.
Qed.

Lemma lookup_roll {A} (s : Z) (a : list A) (i : nat) :
  (i < length a)%nat → roll s a !! i = a !! wrap (length a) i (- s).
Proof.
  intros Hi. unfold roll, wrap.
  destruct (decide (length a = 0%nat)) as [|_]; [lia|].
  set (n := length a) in *.
  pose proof (Z.mod_pos_bound s (Z.of_nat n) ltac:(lia)) as Hq.
  replace ((Z.of_nat i + - s) `mod` Z.of_nat n)
    with ((Z.of_nat i - s `mod` Z.of_nat n) `mod` Z.of_nat n)
    by (rewrite Zminus_mod_idemp_r; f_equal; lia).
  set (q := s `mod` Z.of_nat n) in *.
  destruct (decide (Z.to_nat q = 0%nat)) as [Hz|Hz].
  - rewrite Z.mod_small by lia. f_equal. lia.
  - destruct (decide (i < Z.to_nat q)%nat) as [Hlt|Hge].
    + rewrite lookup_app_l by (rewrite length_drop; lia).
      rewrite lookup_drop. f_equal.
      replace (Z.of_nat i - q) with (Z.of_nat i - q + Z.of_nat n + -1 * Z.of_nat n) by lia.
      rewrite Z.mod_add by lia. rewrite Z.mod_small by lia. lia.
    + rewrite lookup_app_r by (rewrite length_drop; lia).
      rewrite length_drop, lookup_take_lt by lia.
      rewrite Z.mod_small by lia. f_equal. lia.
Qed.

Lemma shape_roll_axis0 {A} H W dy (a : list (list A)) :
  shape H W a → shape H W (roll_axis0 dy a).
Proof.
  intros [Hl Hr]. split; unfold roll_axis0.
  - by rewrite length_roll.
  - unfold roll. destruct (decide _); [done|].
    apply Forall_app. split; [by apply Forall_drop | by apply Forall_take].
Qed.

Lemma shape_roll_axis1 {A} H W dx (a : list (list A)) :
  shape H W a → shape H W (roll_axis1 dx a).
Proof.
  intros [Hl Hr]. split; unfold roll_axis1.
  - by rewrite length_fmap.
  - rewrite Forall_lookup in Hr. apply Forall_fmap, Forall_lookup.
    intros i row Hrow. simpl. rewrite length_roll. eauto.
Qed.

(** The array rolled by [(dy, dx)] shows at [(r, c)] the cell that sits
    [dy] rows and [dx] columns before it, with wrap-around. *)
Lemma cell_rolled {A} H W dy dx (a : list (list A)) r c :
  shape H W a → (r < H)%nat → (c < W)%nat →
  cell (roll_axis1 dx (roll_axis0 dy a)) r c = cell a (wrap H r (- dy)) (wrap W c (- dx)).
Proof.
  intros Hs Hr Hc. pose proof Hs as [Hl _].
  unfold cell, roll_axis1, roll_axis0.
  rewrite list_lookup_fmap, lookup_roll by lia. rewrite Hl.
  destruct (a !! wrap H r (- dy)) as [row|] eqn:Hrow; simpl; [|done].
  pose proof (shape_row _ _ _ _ _ Hs Hrow) as Hlen.
  rewrite lookup_roll by lia. by rewrite Hlen.
Qed.

(** ** The rolled sum and the eight neighbours *)

Lemma count_live_nil g : count_live g [] = 0.
Proof. reflexivity. Qed.

Lemma count_live_cons g p ps :
  count_live g (p :: ps) = Z.b2z (alive g p.1 p.2) + count_live g ps.
Proof.
  unfold count_live. rewrite filter_cons.
  destruct (decide _) as [E|E].
  - rewrite E. simpl length. simpl Z.b2z. lia.
  - destruct (alive g p.1 p.2); [done | simpl; lia].
Qed.

Lemma count_live_bounds g ps : 0 ≤ count_live g ps ≤ Z.of_nat (length ps).
Proof.
  unfold count_live. pose proof (length_filter (λ p, alive g p.1 p.2 = true) ps). lia.
Qed.

Lemma cell_alive H W (g : Grid) r c :
  shape H W g → (r < H)%nat → (c < W)%nat → cell g r c = Some (alive g r c).
Proof.
  intros Hs Hr Hc. unfold alive.
  by destruct (cell_is_Some H W g r c Hs Hr Hc) as [b ->].
Qed.

Lemma cell_rolled_alive H W dy dx (g : Grid) r c :
  shape H W g → (r < H)%nat → (c < W)%nat →
  cell (roll_axis1 dx (roll_axis0 dy g)) r c
  = Some (alive g (wrap H r (- dy)) (wrap W c (- dx))).
Proof.
  intros Hs Hr Hc. rewrite (cell_rolled H W) by done.
  apply (cell_alive H W); [done | apply wrap_lt; lia | apply wrap_lt; lia].
Qed.

(** The rolled sum, cell by cell: the array rolled by [(dy, dx)] brings in
    the neighbour at [(-dy, -dx)], and the eight offsets are closed under
    negation. *)
Lemma neighbors_cell H W (g : Grid) r c :
  shape H W g → (r < H)%nat → (c < W)%nat →
  cell (neighbors g) r c = Some (live_neighbors H W g r c).
Proof.
  intros Hs Hr Hc.
  unfold neighbors, rolled. rewrite offsets_eval. simpl fmap. unfold py_sum.
  cbn [foldl]. unfold array_add, scalar_add.
  rewrite !cell_zip2d, cell_map2d.
  rewrite !(cell_rolled_alive H W) by done. simpl.
  unfold live_neighbors, adjacent, directions. simpl fmap.
  rewrite !count_live_cons, count_live_nil. simpl fst. simpl snd.
  change (- (-1)) with 1. change (- 0) with 0. change (- (1)) with (-1).
  f_equal. lia.
Qed.

Lemma shape_neighbors H W (g : Grid) : shape H W g → shape H W (neighbors g).
Proof.
  intros Hs. unfold neighbors, rolled. rewrite offsets_eval. simpl fmap.
  unfold py_sum. cbn [foldl]. unfold array_add, scalar_add.
  repeat apply shape_zip2d; try apply shape_map2d;
    apply shape_roll_axis1, shape_roll_axis0, Hs.
Qed.

Lemma shape_step H W (g : Grid) : shape H W g → shape H W (step g).
Proof.
  intros Hs. pose proof (shape_neighbors H W g Hs) as Hn.
  unfold step, array_or, array_and, array_eq_scalar.
  apply shape_zip2d; [by apply shape_map2d|].
  apply shape_zip2d; [done | by apply shape_map2d].
Qed.

Lemma step_cell H W (g : Grid) r c :
  shape H W g → (r < H)%nat → (c < W)%nat →
  cell (step g) r c
  = Some ((live_neighbors H W g r c =? 3)
          || (alive g r c && (live_neighbors H W g r c =? 2))).
Proof.
  intros Hs Hr Hc. unfold step, array_or, array_and, array_eq_scalar.
  rewrite !cell_zip2d, !cell_map2d.
  rewrite (neighbors_cell H W), (cell_alive H W g r c) by done.
  reflexivity.
Qed.

(** ** Neighbour counts on small and on large boards *)

Lemma remove_dups_NoDup {A} `{EqDecision A} (l : list A) : NoDup l → remove_dups l = l.
Proof.
  induction 1 as [|x l Hx Hl IH]; simpl; [done|].
  destruct (decide_rel _ _ _); [done | by rewrite IH].
Qed.

Lemma length_remove_dups_le {A} `{EqDecision A} (l : list A) :
  (length (remove_dups l) ≤ length l)%nat.
Proof.
  induction l as [|x l IH]; simpl; [done|].
  destruct (decide_rel _ _ _); simpl; lia.
Qed.

Lemma length_remove_dups_lt {A} `{EqDecision A} (l : list A) :
  ¬ NoDup l → (length (remove_dups l) < length l)%nat.
Proof.
  induction l as [|x l IH]; intros Hdup.
  - destruct Hdup. constructor.
  - simpl. destruct (decide_rel _ _ _) as [Hin|Hin].
    + pose proof (length_remove_dups_le l). lia.
    + simpl. cut (length (remove_dups l) < length l)%nat; [lia|].
      apply IH. intros Hl. apply Hdup. by constructor.
Qed.

Lemma wrap_0 n i : (i < n)%nat → wrap n i 0 = i.
Proof.
  intros Hi. unfold wrap. rewrite Z.add_0_r, Z.mod_small by lia. lia.
Qed.

Lemma wrap_succ n i :
  (i < n)%nat → wrap n i 1 = if decide (S i = n) then 0%nat else S i.
Proof.
  intros Hi. unfold wrap. destruct (decide _) as [E|E].
  - replace (Z.of_nat i + 1) with (Z.of_nat n) by lia.
    rewrite Z.mod_same by lia. done.
  - rewrite Z.mod_small by lia. lia.
Qed.

Lemma wrap_pred n i :
  (i < n)%nat → wrap n i (-1) = if decide (i = 0%nat) then (n - 1)%nat else (i - 1)%nat.
Proof.
  intros Hi. unfold wrap. destruct (decide _) as [E|E].
  - subst i. replace (Z.of_nat 0 + -1) with (Z.of_nat n - 1 + -1 * Z.of_nat n) by lia.
    rewrite Z.mod_add, Z.mod_small by lia. lia.
  - rewrite Z.mod_small by lia. lia.
Qed.

(** On a ring of at least three places the three wrapped indices differ. *)
Lemma wrap_distinct n i :
  (3 ≤ n)%nat → (i < n)%nat →
  wrap n i (-1) ≠ wrap n i 0 ∧ wrap n i 0 ≠ wrap n i 1 ∧ wrap n i (-1) ≠ wrap n i 1.
Proof.
  intros Hn Hi. rewrite wrap_0, wrap_succ, wrap_pred by done.
  repeat destruct (decide _); lia.
Qed.

(** On a ring of one or two places, one step back and one step forward meet. *)
Lemma wrap_meet n i : (0 < n < 3)%nat → (i < n)%nat → wrap n i (-1) = wrap n i 1.
Proof.
  intros Hn Hi. rewrite wrap_succ, wrap_pred by done.
  repeat destruct (decide _); lia.
Qed.

Lemma NoDup_adjacent H W r c :
  (3 ≤ H)%nat → (3 ≤ W)%nat → (r < H)%nat → (c < W)%nat → NoDup (adjacent H W r c).
Proof.
  intros HH HW Hr Hc.
  destruct (wrap_distinct H r HH Hr) as (R1 & R2 & R3).
  destruct (wrap_distinct W c HW Hc) as (C1 & C2 & C3).
  unfold adjacent, directions. simpl fmap.
  repeat (apply NoDup_cons_2;
          [rewrite ?not_elem_of_cons; repeat split;
           first [apply not_elem_of_nil | congruence]|]).
  apply NoDup_nil_2.
Qed.

Lemma dup_adjacent H W r c :
  (0 < H)%nat → (0 < W)%nat → (H < 3 ∨ W < 3)%nat → (r < H)%nat → (c < W)%nat →
  ¬ NoDup (adjacent H W r c).
Proof.
  intros HH HW Hsmall Hr Hc Hnd. destruct Hsmall as [Hs|Hs].
  - pose proof (wrap_meet H r ltac:(lia) Hr) as E.
    assert (1 = 6)%nat as Habs; [|done].
    eapply (NoDup_lookup _ _ _ _ Hnd); unfold adjacent, directions; simpl; [done|].
    by rewrite E.
  - pose proof (wrap_meet W c ltac:(lia) Hc) as E.
    assert (3 = 4)%nat as Habs; [|done].
    eapply (NoDup_lookup _ _ _ _ Hnd); unfold adjacent, directions; simpl; [done|].
    by rewrite E.
Qed.

Lemma shape_replicate {A} H W (x : A) : shape H W (replicate H (replicate W x)).
Proof.
  split; [by rewrite length_replicate|].
  apply Forall_replicate. by rewrite length_replicate.
Qed.

Lemma cell_replicate {A} H W (x : A) r c :
  (r < H)%nat → (c < W)%nat → cell (replicate H (replicate W x)) r c = Some x.
Proof.
  intros Hr Hc. unfold cell. rewrite lookup_replicate_2 by done.
  simpl. by rewrite lookup_replicate_2.
Qed.

Lemma live_neighbors_ones H W r c :
  (r < H)%nat → (c < W)%nat → live_neighbors H W (ones H W) r c = 8.
Proof.
  intros Hr Hc. unfold live_neighbors, adjacent, directions. simpl fmap.
  rewrite !count_live_cons, count_live_nil. simpl fst. simpl snd.
  unfold alive, ones. rewrite !cell_replicate by (apply wrap_lt; lia). done.
Qed.

(** ** Seeding *)

Lemma shape_seed_grid H W d gen : shape H W (seed_grid H W d gen).1.
Proof.
  unfold seed_grid, rng_random, array_lt_scalar. simpl.
  apply shape_map2d. split.
  - by rewrite length_fmap, length_seq.
  - apply Forall_fmap, Forall_lookup. intros i x _. simpl.
    by rewrite length_fmap, length_seq.
Qed.

Lemma cell_seed_grid H W d gen r c :
  (r < H)%nat → (c < W)%nat →
  cell (seed_grid H W d gen).1 r c
  = Some (Qltb (draws gen (cursor gen + r * W + c)%nat) d).
Proof.
  intros Hr Hc. unfold seed_grid, rng_random, array_lt_scalar. simpl.
  rewrite cell_map2d. unfold cell.
  rewrite list_lookup_fmap, lookup_seq_lt by done. simpl.
  rewrite list_lookup_fmap, lookup_seq_lt by done. done.
Qed.

Lemma rng_seed_grid H W d gen :
  (seed_grid H W d gen).2 = {| draws := draws gen; cursor := cursor gen + H * W |}.
Proof. reflexivity. Qed.

Lemma Qltb_lt x y : Qltb x y = true ↔ (x < y)%Q.
Proof.
  unfold Qltb. rewrite negb_true_iff, <- not_true_iff_false, Qle_bool_iff.
  split; [apply Qnot_le_lt | apply Qlt_not_le].
Qed.

(** A freshly seeded grid has the cell [(r, c)] alive when its draw is below
    the density. *)
Lemma seed_grid_live H W d gen r c :
  cell (seed_grid H W d gen).1 r c = Some true
  ↔ (r < H)%nat ∧ (c < W)%nat ∧ (draws gen (cursor gen + r * W + c)%nat < d)%Q.
Proof.
  split.
  - intros Hcell.
    destruct (cell_in_range H W _ r c true (shape_seed_grid H W d gen) Hcell) as [Hr Hc].
    rewrite cell_seed_grid in Hcell by done.
    split; [done|]. split; [done|]. apply Qltb_lt. congruence.
  - intros (Hr & Hc & Hlt). rewrite cell_seed_grid by done.
    f_equal. by apply Qltb_lt.
Qed.

(** ** [any] and [array_equal] *)

Lemma any_true (a : Grid) : any a = true ↔ ∃ r c, cell a r c = Some true.
Proof.
  unfold any. rewrite existsb_exists. split.
  - intros (row & Hrow & Hex). apply existsb_exists in Hex as (b & Hb & Hid).
    apply list_elem_of_In, list_elem_of_lookup in Hrow as [r Hr].
    apply list_elem_of_In, list_elem_of_lookup in Hb as [c Hc].
    exists r, c. unfold cell. rewrite Hr. simpl. rewrite Hc.
    by destruct b.
  - intros (r & c & Hcell). unfold cell in Hcell.
    destruct (a !! r) as [row|] eqn:Hr; [|done]. simpl in Hcell.
    exists row. split.
    + by apply list_elem_of_In, (list_elem_of_lookup_2 _ r).
    + apply existsb_exists. exists true. split; [|done].
      by apply list_elem_of_In, (list_elem_of_lookup_2 _ c).
Qed.

Lemma array_equal_true (a b : Grid) : array_equal a b = true ↔ a = b.
Proof. unfold array_equal. apply bool_decide_eq_true. Qed.

Lemma array_equal_false (a b : Grid) : array_equal a b = false ↔ a ≠ b.
Proof. unfold array_equal. apply bool_decide_eq_false. Qed.

Lemma degenerate_false (new_grid old : Grid) :
  degenerate new_grid old = false ↔ any new_grid = true ∧ new_grid ≠ old.
Proof.
  unfold degenerate. rewrite orb_false_iff, negb_false_iff, array_equal_false. done.
Qed.

Lemma degenerate_true (new_grid old : Grid) :
  degenerate new_grid old = true ↔ any new_grid = false ∨ new_grid = old.
Proof.
  unfold degenerate. rewrite orb_true_iff, negb_true_iff, array_equal_true. done.
Qed.

(** ** One generation of the simulation *)

Lemma advance_keep H W d s :
  degenerate (step (grid s)) (prev s) = false →
  advance H W d s = {| grid := step (grid s); prev := grid s; rng := rng s |}.
Proof. intros Hd. unfold advance. by rewrite Hd. Qed.

Lemma advance_reseed H W d s :
  degenerate (step (grid s)) (prev s) = true →
  advance H W d s
  = {| grid := (seed_grid H W d (rng s)).1; prev := grid s;
       rng := (seed_grid H W d (rng s)).2 |}.
Proof. intros Hd. unfold advance. by rewrite Hd. Qed.

Lemma prev_advance H W d s : prev (advance H W d s) = grid s.
Proof. unfold advance. by destruct (degenerate _ _). Qed.

Lemma shape_advance H W d s : shape H W (grid s) → shape H W (grid (advance H W d s)).
Proof.
  intros Hs. unfold advance. destruct (degenerate _ _); simpl.
  - apply shape_seed_grid.
  - by apply shape_step.
Qed.

Lemma run_succ_r H W d n s : run H W d (S n) s = run H W d n (advance H W d s).
Proof. unfold run. apply Nat.iter_succ_r. Qed.

Lemma run_succ H W d n s : run H W d (S n) s = advance H W d (run H W d n s).
Proof. reflexivity. Qed.

(** The grid keeps the dimensions of the panel, so the mask of line 67
    always fits the frame. *)
Lemma shape_run H W d n s : shape H W (grid s) → shape H W (grid (run H W d n s)).
Proof.
  intros Hs. induction n as [|n IH]; [done|].
  rewrite run_succ. by apply shape_advance.
Qed.

(** ** Orbits of the bare rule *)

Lemma generations_S n g : generations (S n) g = step (generations n g).
Proof. reflexivity. Qed.

Lemma generations_add n m g : generations (n + m) g = generations n (generations m g).
Proof. unfold generations. apply Nat.iter_add. Qed.

Lemma generations_period p g k :
  generations p g = g → generations (k * p) g = g.
Proof.
  intros Hp. induction k as [|k IH]; [done|].
  simpl. rewrite Nat.add_comm, generations_add. by rewrite Hp.
Qed.

Lemma generations_mod p g n :
  (0 < p)%nat → generations p g = g → generations n g = generations (n `mod` p) g.
Proof.
  intros Hpos Hp.
  rewrite (Nat.div_mod_eq n p) at 1.
  rewrite Nat.add_comm, generations_add, (Nat.mul_comm p).
  by rewrite generations_period.
Qed.

(** In a periodic orbit a state that comes back after two generations makes
    the first state come back after two generations. *)
Lemma generations_two_cycle p g n :
  (0 < p)%nat → generations p g = g →
  generations (S (S n)) g = generations n g → step (step g) = g.
Proof.
  intros Hpos Hp Hn.
  assert (n ≤ n * p)%nat as Hle by nia.
  assert (generations (n * p - n) (generations (S (S n)) g)
          = generations (n * p - n) (generations n g)) as E by (by rewrite Hn).
  rewrite <- !generations_add in E.
  replace (n * p - n + n)%nat with (n * p)%nat in E by lia.
  replace (n * p - n + S (S n))%nat with (2 + n * p)%nat in E by lia.
  rewrite generations_add in E. rewrite generations_period in E by done.
  exact E.
Qed.

(** ** The loop *)

Lemma frames_succ H W d n s :
  frames H W d (S n) s
  = render H W (grid (advance H W d s)) :: frames H W d n (advance H W d s).
Proof. reflexivity. Qed.

Lemma pushes_nil delay : pushes delay [] = [].
Proof. reflexivity. Qed.

Lemma pushes_cons delay f fs :
  pushes delay (f :: fs) = SetImage f :: Sleep delay :: pushes delay fs.
Proof. reflexivity. Qed.

Section loop.
Variable driver : Args → Matrix.
Variable args : Args.

Let H := height (driver args).
Let W := width (driver args).

Lemma iteration_eq delay st :
  iteration driver args delay st
  = {| sim := advance H W (seed args) (sim st); running := running st;
       trace := trace st ++ pushes delay
                  [render H W (grid (advance H W (seed args) (sim st)))] |}.
Proof. reflexivity. Qed.

Lemma run_loop_stopped delay sched st :
  running st = false → run_loop driver args delay sched st = st.
Proof. intros Hr. destruct sched; simpl; [done | by rewrite Hr]. Qed.

(** What the loop has done when the schedule is used up or the flag is seen. *)
Lemma run_loop_spec delay sched st :
  running st = true →
  run_loop driver args delay sched st
  = {| sim := run H W (seed args) (iterations sched) (sim st);
       running := negb (cancelled sched);
       trace := trace st ++ pushes delay
                  (frames H W (seed args) (iterations sched) (sim st)) |}.
Proof.
  revert st. induction sched as [|sigint rest IH]; intros st Hrun.
  - cbn [run_loop iterations frames]. rewrite pushes_nil, app_nil_r.
    destruct st as [s r t]. cbn in Hrun. subst r. reflexivity.
  - simpl run_loop. rewrite Hrun. destruct sigint; simpl deliver.
    + rewrite run_loop_stopped by done. rewrite iteration_eq.
      cbn [iterations]. unfold _stop. cbn [sim running trace]. reflexivity.
    + rewrite IH by done. rewrite iteration_eq.
      cbn [sim running trace iterations].
      change (cancelled (false :: rest)) with (cancelled rest).
      rewrite run_succ_r, frames_succ, pushes_cons, <- app_assoc.
      reflexivity.
Qed.

(** A run of [main] when line 47 yields [delay]. *)
Lemma main_spec gen (early : bool) sched delay :
  frame_delay args = Some delay →
  let s0 := {| grid := (seed_grid H W (seed args) gen).1;
               prev := (seed_grid H W (seed args) gen).1;
               rng := (seed_grid H W (seed args) gen).2 |} in
  let n := if early then 0%nat else iterations sched in
  let body := RGBMatrix args :: pushes delay (frames H W (seed args) n s0) in
  main driver args gen early sched
  = if early || cancelled sched then Returned (body ++ [Clear]) else Looping body.
Proof.
  intros Hdelay. unfold main. fold H W. rewrite Hdelay.
  destruct (seed_grid H W (seed args) gen) as [g gen'] eqn:Hseed.
  cbn [fst snd]. destruct early; cbn [deliver orb].
  - rewrite run_loop_stopped by done. reflexivity.
  - rewrite run_loop_spec by done. cbn [running trace sim].
    by destruct (cancelled sched).
Qed.

(** A run of [main] when line 47 raises. *)
Lemma main_raises gen (early : bool) sched :
  frame_delay args = None → main driver args gen early sched = Raised [RGBMatrix args].
Proof.
  intros Hdelay. unfold main. rewrite Hdelay.
  destruct (seed_grid _ _ _ _) as [g gen']. by destruct early.
Qed.

End loop.

Lemma length_frames H W d n s : length (frames H W d n s) = n.
Proof. revert s. induction n as [|n IH]; intros s; simpl; [done | by rewrite IH]. Qed.

Lemma iterations_cancelled pre post :
  Forall (λ b, b = false) pre → iterations (pre ++ true :: post) = S (length pre).
Proof.
  induction 1 as [|b pre -> _ IH]; simpl; [done | by rewrite IH].
Qed.

Lemma cancelled_true sched : cancelled sched = true ↔ true ∈ sched.
Proof.
  unfold cancelled. rewrite existsb_exists. split.
  - intros (b & Hin & Hb). simpl in Hb. subst. by apply list_elem_of_In.
  - intros Hin. exists true. split; [by apply list_elem_of_In | done].
Qed.

(** In the events of pushed frames every [SetImage] is followed by its
    [Sleep], every sleep lasts [delay], and there is no [Clear]. *)
Lemma pushes_lookup delay fs i e :
  pushes delay fs !! i = Some e →
  (∃ f, e = SetImage f ∧ pushes delay fs !! S i = Some (Sleep delay)) ∨ e = Sleep delay.
Proof.
  revert i. induction fs as [|f fs IH]; intros i; [done|].
  unfold pushes in *. simpl.
  destruct i as [|[|i]]; simpl.
  - intros [= <-]. left. eauto.
  - intros [= <-]. by right.
  - apply IH.
Qed.

Lemma sleeps_pushes delay fs : sleeps (pushes delay fs) = replicate (length fs) delay.
Proof. induction fs as [|f fs IH]; [done|]. simpl. f_equal. exact IH. Qed.

Lemma not_clear_pushes delay fs : Clear ∉ pushes delay fs.
Proof.
  intros Hin. apply list_elem_of_lookup in Hin as [i Hi].
  by destruct (pushes_lookup _ _ _ _ Hi) as [(f & ? & _)|?].
Qed.

Lemma sleeps_app t1 t2 : sleeps (t1 ++ t2) = sleeps t1 ++ sleeps t2.
Proof. unfold sleeps. apply bind_app. Qed.

(** ** Drawing *)

Lemma shape_render H W (g : Grid) : shape H W g → shape H W (render H W g).
Proof.
  intros Hs. unfold render, mask_assign.
  apply shape_zip2d; [apply shape_replicate | done].
Qed.

Lemma cell_render H W (g : Grid) r c :
  shape H W g → (r < H)%nat → (c < W)%nat →
  cell (render H W g) r c
  = Some (if alive g r c then [255; 255; 255] else [0; 0; 0]).
Proof.
  intros Hs Hr Hc. unfold render, mask_assign, zeros.
  rewrite cell_zip2d, cell_replicate, (cell_alive H W g r c) by done.
  reflexivity.
Qed.

(** ** Rolling twice, and rolling the board under the rule *)

Lemma wrap_wrap n i a b : (0 < n)%nat → wrap n (wrap n i a) b = wrap n i (a + b).
Proof.
  intros Hn. unfold wrap. f_equal.
  rewrite Z2Nat.id by (apply Z.mod_pos_bound; lia).
  rewrite Zplus_mod_idemp_l. f_equal. lia.
Qed.

Lemma roll_nil {A} (s : Z) : roll s (@nil A) = [].
Proof. unfold roll. by destruct (decide _). Qed.

Lemma roll_add {A} (s t : Z) (a : list A) : roll s (roll t a) = roll (s + t) a.
Proof.
  apply list_eq. intros i.
  destruct (decide (i < length a)%nat) as [Hi|Hi].
  - rewrite lookup_roll by (by rewrite length_roll).
    rewrite length_roll, lookup_roll by (apply wrap_lt; lia).
    rewrite lookup_roll by done.
    rewrite wrap_wrap by lia. do 2 f_equal. lia.
  - rewrite !lookup_ge_None_2; [done | |]; rewrite ?length_roll; lia.
Qed.

Lemma roll_0 {A} (a : list A) : roll 0 a = a.
Proof.
  unfold roll. rewrite Z.mod_0_l; [done|].
  destruct (decide _); lia.
Qed.

Lemma roll_period {A} (s k : Z) (a : list A) :
  roll (s + k * Z.of_nat (length a)) a = roll s a.
Proof.
  unfold roll. destruct (decide (length a = 0%nat)) as [E|E].
  - by rewrite !Z.mod_1_r.
  - by rewrite Z.mod_add by lia.
Qed.

Lemma cell_roll_axis0 {A} H W k (a : list (list A)) r c :
  shape H W a → (r < H)%nat → cell (roll_axis0 k a) r c = cell a (wrap H r (- k)) c.
Proof.
  intros [Hl _] Hr. unfold cell, roll_axis0.
  rewrite lookup_roll by lia. by rewrite Hl.
Qed.

Lemma cell_roll_axis1 {A} H W k (a : list (list A)) r c :
  shape H W a → (r < H)%nat → (c < W)%nat →
  cell (roll_axis1 k a) r c = cell a r (wrap W c (- k)).
Proof.
  intros Hs Hr Hc. unfold cell, roll_axis1. rewrite list_lookup_fmap.
  destruct (a !! r) as [row|] eqn:Hrow; simpl; [|done].
  rewrite lookup_roll by (rewrite (shape_row _ _ _ _ _ Hs Hrow); lia).
  by rewrite (shape_row _ _ _ _ _ Hs Hrow).
Qed.

Lemma alive_roll_axis0 H W k (g : Grid) r c :
  shape H W g → (r < H)%nat →
  alive (roll_axis0 k g) r c = alive g (wrap H r (- k)) c.
Proof. intros Hs Hr. unfold alive. by rewrite (cell_roll_axis0 H W). Qed.

Lemma alive_roll_axis1 H W k (g : Grid) r c :
  shape H W g → (r < H)%nat → (c < W)%nat →
  alive (roll_axis1 k g) r c = alive g r (wrap W c (- k)).
Proof. intros Hs Hr Hc. unfold alive. by rewrite (cell_roll_axis1 H W). Qed.

Lemma wrap_swap n i a b : (0 < n)%nat → wrap n (wrap n i a) b = wrap n (wrap n i b) a.
Proof. intros Hn. rewrite !wrap_wrap by done. f_equal. lia. Qed.

Lemma live_neighbors_roll_axis0 H W k (g : Grid) r c :
  shape H W g → (r < H)%nat → (c < W)%nat →
  live_neighbors H W (roll_axis0 k g) r c = live_neighbors H W g (wrap H r (- k)) c.
Proof.
  intros Hs Hr Hc. unfold live_neighbors, adjacent, directions. simpl fmap.
  rewrite !count_live_cons, !count_live_nil. simpl fst. simpl snd.
  rewrite !(alive_roll_axis0 H W) by (done || apply wrap_lt; lia).
  rewrite !(wrap_swap H r _ (- k)) by lia. reflexivity.
Qed.

Lemma live_neighbors_roll_axis1 H W k (g : Grid) r c :
  shape H W g → (r < H)%nat → (c < W)%nat →
  live_neighbors H W (roll_axis1 k g) r c = live_neighbors H W g r (wrap W c (- k)).
Proof.
  intros Hs Hr Hc. unfold live_neighbors, adjacent, directions. simpl fmap.
  rewrite !count_live_cons, !count_live_nil. simpl fst. simpl snd.
  rewrite !(alive_roll_axis1 H W) by (done || apply wrap_lt; lia).
  rewrite !(wrap_swap W c _ (- k)) by lia. reflexivity.
Qed.

(** ** Empty and full boards *)

Lemma alive_replicate H W b r c :
  (r < H)%nat → (c < W)%nat → alive (replicate H (replicate W b)) r c = b.
Proof. intros Hr Hc. unfold alive. by rewrite cell_replicate. Qed.

Lemma live_neighbors_zeros H W r c :
  (r < H)%nat → (c < W)%nat → live_neighbors H W (zeros_bool H W) r c = 0.
Proof.
  intros Hr Hc. unfold live_neighbors, adjacent, directions. simpl fmap.
  rewrite !count_live_cons, count_live_nil. simpl fst. simpl snd.
  unfold zeros_bool. rewrite !alive_replicate by (apply wrap_lt; lia). done.
Qed.

Lemma step_zeros H W : step (zeros_bool H W) = zeros_bool H W.
Proof.
  apply (shape_ext H W); [apply shape_step, shape_replicate | apply shape_replicate|].
  intros r c Hr Hc. rewrite (step_cell H W) by (done || apply shape_replicate).
  rewrite live_neighbors_zeros by done.
  unfold zeros_bool. by rewrite alive_replicate, cell_replicate.
Qed.

Lemma step_ones H W : step (ones H W) = zeros_bool H W.
Proof.
  apply (shape_ext H W); [apply shape_step, shape_replicate | apply shape_replicate|].
  intros r c Hr Hc. rewrite (step_cell H W) by (done || apply shape_replicate).
  rewrite live_neighbors_ones by done.
  unfold zeros_bool. rewrite cell_replicate by done.
  f_equal. apply andb_false_r.
Qed.

Lemma any_zeros H W : any (zeros_bool H W) = false.
Proof.
  apply not_true_is_false. intros Hany.
  apply any_true in Hany as (r & c & Hcell).
  destruct (cell_in_range H W _ r c true (shape_replicate H W false) Hcell) as [Hr Hc].
  unfold zeros_bool in Hcell. by rewrite cell_replicate in Hcell.
Qed.

Lemma seed_grid_full H W d gen :
  (∀ n, draws gen n < 1)%Q → (1 <= d)%Q → (seed_grid H W d gen).1 = ones H W.
Proof.
  intros Hdraw Hd.
  apply (shape_ext H W); [apply shape_seed_grid | apply shape_replicate|].
  intros r c Hr Hc. rewrite cell_seed_grid by done.
  unfold ones. rewrite cell_replicate by done. f_equal.
  apply Qltb_lt. eapply Qlt_le_trans; [apply Hdraw | exact Hd].
Qed.

Lemma seed_grid_empty H W d gen :
  (∀ n, 0 <= draws gen n)%Q → (d <= 0)%Q → (seed_grid H W d gen).1 = zeros_bool H W.
Proof.
  intros Hdraw Hd.
  apply (shape_ext H W); [apply shape_seed_grid | apply shape_replicate|].
  intros r c Hr Hc. rewrite cell_seed_grid by done.
  unfold zeros_bool. rewrite cell_replicate by done. f_equal.
  apply not_true_is_false. rewrite Qltb_lt.
  apply Qle_not_lt. eapply Qle_trans; [exact Hd | apply Hdraw].
Qed.

Lemma elem_of_pushes delay fs f : SetImage f ∈ pushes delay fs ↔ f ∈ fs.
Proof.
  unfold pushes. rewrite list_elem_of_bind. split.
  - intros (f' & Hin & Hf'). apply elem_of_cons in Hin as [[= ->]|Hin]; [done|].
    apply elem_of_cons in Hin as [?|Hin]; [done|]. by apply elem_of_nil in Hin.
  - intros Hf. exists f. split; [apply elem_of_cons; by left | done].
Qed.

Lemma step_roll_axis0 H W k (g : Grid) :
  shape H W g → step (roll_axis0 k g) = roll_axis0 k (step g).
Proof.
  intros Hs.
  apply (shape_ext H W);
    [by apply shape_step, shape_roll_axis0 | by apply shape_roll_axis0, shape_step|].
  intros r c Hr Hc.
  rewrite (step_cell H W) by (done || by apply shape_roll_axis0).
  rewrite (cell_roll_axis0 H W) by (done || by apply shape_step).
  rewrite (step_cell H W) by (done || apply wrap_lt; lia).
  by rewrite (live_neighbors_roll_axis0 H W), (alive_roll_axis0 H W).
Qed.

Lemma step_roll_axis1 H W k (g : Grid) :
  shape H W g → step (roll_axis1 k g) = roll_axis1 k (step g).
Proof.
  intros Hs.
  apply (shape_ext H W);
    [by apply shape_step, shape_roll_axis1 | by apply shape_roll_axis1, shape_step|].
  intros r c Hr Hc.
  rewrite (step_cell H W) by (done || by apply shape_roll_axis1).
  rewrite (cell_roll_axis1 H W) by (done || by apply shape_step).
  rewrite (step_cell H W) by (done || apply wrap_lt; lia).
  by rewrite (live_neighbors_roll_axis1 H W), (alive_roll_axis1 H W).
Qed.

(** ** Frames of a run *)

Lemma render_ones H W : render H W (ones H W) = replicate H (replicate W [255; 255; 255]).
Proof.
  apply (shape_ext H W); [apply shape_render, shape_replicate | apply shape_replicate|].
  intros r c Hr Hc. rewrite cell_render by (done || apply shape_replicate).
  unfold ones. by rewrite alive_replicate, cell_replicate.
Qed.

Lemma render_zeros H W : render H W (zeros_bool H W) = zeros H W.
Proof.
  apply (shape_ext H W); [apply shape_render, shape_replicate | apply shape_replicate|].
  intros r c Hr Hc. rewrite cell_render by (done || apply shape_replicate).
  unfold zeros_bool, zeros. by rewrite alive_replicate, cell_replicate.
Qed.

(** Every frame of a run is the drawing of a grid of the panel's shape. *)
Lemma frames_render H W d n s f :
  shape H W (grid s) → f ∈ frames H W d n s → ∃ g, shape H W g ∧ f = render H W g.
Proof.
  revert s. induction n as [|n IH]; intros s Hs Hf; [by apply elem_of_nil in Hf|].
  rewrite frames_succ in Hf. apply elem_of_cons in Hf as [->|Hf].
  - eexists. split; [|done]. by apply shape_advance.
  - apply (IH (advance H W d s)); [by apply shape_advance | done].
Qed.

Lemma frames_full H W d n s f :
  (∀ k, draws (rng s) k < 1)%Q → (1 <= d)%Q → grid s = ones H W →
  f ∈ frames H W d n s → f = render H W (ones H W).
Proof.
  revert s. induction n as [|n IH]; intros s Hdraw Hd Hg Hf; [by apply elem_of_nil in Hf|].
  assert (advance H W d s
          = mkSim (ones H W) (ones H W) (seed_grid H W d (rng s)).2) as E.
  { rewrite advance_reseed.
    - by rewrite Hg, seed_grid_full.
    - apply degenerate_true. left. rewrite Hg, step_ones. apply any_zeros. }
  rewrite frames_succ, E in Hf. apply elem_of_cons in Hf as [->|Hf]; [done|].
  revert Hf. apply IH; [exact Hdraw | exact Hd | reflexivity].
Qed.

Lemma frames_empty H W d n s f :
  (∀ k, 0 <= draws (rng s) k)%Q → (d <= 0)%Q → grid s = zeros_bool H W →
  f ∈ frames H W d n s → f = render H W (zeros_bool H W).
Proof.
  revert s. induction n as [|n IH]; intros s Hdraw Hd Hg Hf; [by apply elem_of_nil in Hf|].
  assert (advance H W d s
          = mkSim (zeros_bool H W) (zeros_bool H W) (seed_grid H W d (rng s)).2) as E.
  { rewrite advance_reseed.
    - by rewrite Hg, seed_grid_empty.
    - apply degenerate_true. left. rewrite Hg, step_zeros. apply any_zeros. }
  rewrite frames_succ, E in Hf. apply elem_of_cons in Hf as [->|Hf]; [done|].
  revert Hf. apply IH; [exact Hdraw | exact Hd | reflexivity].
Qed.

(** The frames of a run of [main], read off its trace. *)
Lemma main_frames driver args gen (early : bool) sched f :
  SetImage f ∈ events_of (main driver args gen early sched) →
  f ∈ frames (height (driver args)) (width (driver args)) (seed args)
        (if early then 0%nat else iterations sched)
        {| grid := (seed_grid (height (driver args)) (width (driver args)) (seed args) gen).1;
           prev := (seed_grid (height (driver args)) (width (driver args)) (seed args) gen).1;
           rng := (seed_grid (height (driver args)) (width (driver args)) (seed args) gen).2 |}.
Proof.
  destruct (frame_delay args) as [delay|] eqn:Hdelay.
  - rewrite (main_spec _ _ _ _ _ delay Hdelay). cbv zeta.
    set (fs := frames _ _ _ _ _). intros Hin.
    assert (SetImage f ∈ RGBMatrix args :: pushes delay fs) as Hbody.
    { destruct (early || cancelled sched); cbn [events_of] in Hin; [|done].
      apply elem_of_app in Hin as [Hin|Hin]; [done|].
      apply elem_of_cons in Hin as [?|Hin]; [done | by apply elem_of_nil in Hin]. }
    apply elem_of_cons in Hbody as [?|Hbody]; [done|].
    by apply elem_of_pushes in Hbody.
  - rewrite main_raises by done. cbn [events_of]. intros Hin.
    apply elem_of_cons in Hin as [?|Hin]; [done | by apply elem_of_nil in Hin].
Qed.

Lemma iterations_quiet sched : true ∉ sched → iterations sched = length sched.
Proof.
  induction sched as [|b sched IH]; [done|].
  intros Hno. apply not_elem_of_cons in Hno as [Hb Hno].
  destruct b; [done|]. simpl. by rewrite IH.
Qed.

Lemma iterations_first_sigint pre post :
  iterations (pre ++ true :: post) = iterations (pre ++ [true]).
Proof.
  induction pre as [|b pre IH]; [done|].
  simpl. destruct b; [done | by rewrite IH].
Qed.

Lemma cancelled_app_true pre post : cancelled (pre ++ true :: post) = true.
Proof. apply cancelled_true, elem_of_app. right. apply elem_of_cons. by left. Qed.


(** ** The camera script *)

Lemma cell_None_row {A} H W (a : list (list A)) r c :
  shape H W a → (H ≤ r)%nat → cell a r c = None.
Proof.
  intros [Hl _] Hr. unfold cell. rewrite lookup_ge_None_2; [done | lia].
Qed.

Lemma cell_None_col {A} H W (a : list (list A)) r c :
  shape H W a → (W ≤ c)%nat → cell a r c = None.
Proof.
  intros Hs Hc. unfold cell. destruct (a !! r) as [row|] eqn:Hrow; [|done].
  simpl. apply lookup_ge_None_2. rewrite (shape_row _ _ _ _ _ Hs Hrow). lia.
Qed.

Lemma cell_paste canvas img2 x y r c :
  cell (cam_to_matrix.img_data (cam_to_matrix.paste canvas img2 x y)) r c
  = (λ px, if decide (0 ≤ Z.of_nat r - y ∧ 0 ≤ Z.of_nat c - x)
           then default px (cell (cam_to_matrix.img_data img2)
                              (Z.to_nat (Z.of_nat r - y)) (Z.to_nat (Z.of_nat c - x)))
           else px)
    <$> cell (cam_to_matrix.img_data canvas) r c.
Proof.
  unfold cell, cam_to_matrix.paste. cbn [cam_to_matrix.img_data].
  rewrite list_lookup_imap.
  destruct (cam_to_matrix.img_data canvas !! r) as [row|]; [|done].
  cbn. by rewrite list_lookup_imap.
Qed.

Lemma wf_paste canvas img2 x y :
  cam_to_matrix.wf canvas → cam_to_matrix.wf (cam_to_matrix.paste canvas img2 x y).
Proof.
  intros [Hl Hr]. split; cbn.
  - by rewrite length_imap.
  - rewrite Forall_lookup in Hr. apply Forall_lookup. intros i row Hrow.
    rewrite list_lookup_imap in Hrow.
    destruct (cam_to_matrix.img_data canvas !! i) as [row'|] eqn:E; [|done].
    injection Hrow as <-. rewrite length_imap. by eapply Hr.
Qed.

Section camera.
Variable ImageOps_fit thumbnail : cam_to_matrix.Image → nat → nat → cam_to_matrix.Image.
Variable ImageOps_mirror : cam_to_matrix.Image → cam_to_matrix.Image.
Variable img_rotate : Z → cam_to_matrix.Image → cam_to_matrix.Image.
Variable driver : cam_to_matrix.Args → Matrix.
Variable args : cam_to_matrix.Args.

Variable target : Q.

Let run_loop :=
  cam_to_matrix.run_loop ImageOps_fit thumbnail ImageOps_mirror img_rotate driver args
    target.

Lemma limiter_events dt : Forall loop_event (cam_to_matrix.limiter target dt).
Proof.
  unfold cam_to_matrix.limiter.
  destruct (Qltb dt target); repeat constructor.
Qed.

Lemma run_loop_events ticks running trace :
  ∃ more, cam_to_matrix.events_of (run_loop ticks running trace) = trace ++ more
          ∧ Forall loop_event more.
Proof.
  revert running trace. induction ticks as [|tk rest IH]; intros running trace.
  - exists []. rewrite app_nil_r. split; [by destruct running | constructor].
  - cbn. destruct running; [|exists []; rewrite app_nil_r; split; [done | constructor]].
    destruct (cam_to_matrix.capture_array tk) as [frame|];
      [|exists []; rewrite app_nil_r; split; [done | constructor]].
    destruct (IH (negb (cam_to_matrix.sigint tk))
                (trace ++ cam_to_matrix.SetImage
                            (cam_to_matrix.prepare ImageOps_fit thumbnail ImageOps_mirror
                               img_rotate driver args frame)
                          :: cam_to_matrix.limiter target (cam_to_matrix.dt tk)))
      as (more & E & Hmore).
    eexists. split; [rewrite E, <- app_assoc; reflexivity|].
    apply Forall_app. split; [|done].
    constructor; [exact I | apply limiter_events].
Qed.

Lemma run_loop_raises pre tk post trace :
  Forall quiet pre → cam_to_matrix.capture_array tk = None →
  ∃ t, run_loop (pre ++ tk :: post) true trace = cam_to_matrix.Raised t.
Proof.
  intros Hpre Hfail. revert trace.
  induction Hpre as [|q pre [[frame Hq] Hs] _ IH]; intros trace.
  - cbn. rewrite Hfail. eauto.
  - cbn. rewrite Hq, Hs. apply IH.
Qed.

Lemma run_loop_returns pre tk post trace :
  Forall quiet pre → is_Some (cam_to_matrix.capture_array tk) →
  cam_to_matrix.sigint tk = true →
  ∃ t, run_loop (pre ++ tk :: post) true trace = cam_to_matrix.Returned t.
Proof.
  intros Hpre [frame Hok] Hsig. revert trace.
  induction Hpre as [|q pre [[frame' Hq] Hs] _ IH]; intros trace.
  - cbn. rewrite Hok, Hsig. cbn. destruct post; cbn; eauto.
  - cbn. rewrite Hq, Hs. apply IH.
Qed.

End camera.


Lemma distinct_live_neighbors_eq H W (g : Grid) r c :
  (3 ≤ H)%nat → (3 ≤ W)%nat → (r < H)%nat → (c < W)%nat →
  distinct_adjacent H W r c = adjacent H W r c
  ∧ distinct_live_neighbors H W g r c = live_neighbors H W g r c.
Proof.
  intros HH HW Hr Hc.
  pose proof (NoDup_adjacent H W r c HH HW Hr Hc) as Hnd.
  unfold distinct_live_neighbors, distinct_adjacent, live_neighbors.
  by rewrite (remove_dups_NoDup _ Hnd).
Qed.


(** ** Doubles *)

Lemma pow2_pos k : 0 < 2 ^ k ∨ k < 0.
Proof. destruct (Z_lt_le_dec k 0); [by right | left; by apply Z.pow_pos_nonneg]. Qed.

Lemma pow2_ge_1 k : 0 ≤ k → 1 ≤ 2 ^ k.
Proof. intros Hk. pose proof (Z.pow_pos_nonneg 2 k ltac:(lia) Hk). lia. Qed.

(** Numerator and denominator of a scaled positive fraction are positive. *)
Lemma scaled_pos p q t :
  0 < p → 0 < q → 0 < (scaled p q t).1 ∧ 0 < (scaled p q t).2.
Proof.
  intros Hp Hq. unfold scaled. destruct (Z.leb_spec 0 t); cbn.
  - pose proof (pow2_ge_1 t ltac:(lia)). split; nia.
  - pose proof (pow2_ge_1 (- t) ltac:(lia)). split; nia.
Qed.

Lemma scaled_mono p q t t' :
  0 < p → 0 < q → t' ≤ t →
  (scaled p q t).2 ≤ (scaled p q t).1 → (scaled p q t').2 ≤ (scaled p q t').1.
Proof.
  intros Hp Hq Ht. unfold scaled.
  destruct (Z.leb_spec 0 t), (Z.leb_spec 0 t'); cbn; try lia.
  - pose proof (Z.pow_le_mono_r 2 t' t ltac:(lia) Ht).
    pose proof (pow2_ge_1 t' ltac:(lia)). nia.
  - pose proof (pow2_ge_1 t ltac:(lia)).
    pose proof (pow2_ge_1 (- t') ltac:(lia)). nia.
  - pose proof (Z.pow_le_mono_r 2 (- t) (- t') ltac:(lia) ltac:(lia)).
    pose proof (pow2_ge_1 (- t) ltac:(lia)). nia.
Qed.

(** [p / q] is at least 2 to the power [ilog2 p q]. *)
Lemma ilog2_lower p q :
  0 < p → 0 < q → (scaled p q (ilog2 p q)).2 ≤ (scaled p q (ilog2 p q)).1.
Proof.
  intros Hp Hq. unfold ilog2.
  set (e0 := Z.log2 p - Z.log2 q).
  destruct (scaled p q e0) as [n d] eqn:E.
  destruct (Z.leb_spec d n) as [Hle|Hgt]; [by rewrite E|].
  pose proof (Z.log2_spec p Hp) as [Hp1 Hp2].
  pose proof (Z.log2_spec q Hq) as [Hq1 Hq2].
  pose proof (Z.log2_nonneg p). pose proof (Z.log2_nonneg q).
  unfold scaled. destruct (Z.leb_spec 0 (e0 - 1)); cbn.
  - assert (2 ^ Z.log2 p = 2 ^ Z.succ (Z.log2 q) * 2 ^ (e0 - 1)) as Epow.
    { rewrite <- Z.pow_add_r by lia. f_equal. lia. }
    pose proof (pow2_ge_1 (e0 - 1) ltac:(lia)). nia.
  - assert (2 ^ Z.succ (Z.log2 q) = 2 ^ Z.log2 p * 2 ^ (- (e0 - 1))) as Epow.
    { rewrite <- Z.pow_add_r by lia. f_equal. lia. }
    pose proof (pow2_ge_1 (- (e0 - 1)) ltac:(lia)). nia.
Qed.

Lemma ilog2_le_0 p q : 0 < p → p ≤ q → ilog2 p q ≤ 0.
Proof.
  intros Hp Hle. unfold ilog2.
  pose proof (Z.log2_le_mono p q Hle).
  destruct (scaled _ _ _) as [n d]. destruct (d <=? n); lia.
Qed.

(** The mantissa [nearest] chooses is the integer part of the scaled
    fraction or the next integer. *)
Lemma nearest_spec p q :
  ∃ m' t n d,
    nearest p q = (m', t)
    ∧ t = Z.max (ilog2 p q - 52) (-1074)
    ∧ scaled p q t = (n, d)
    ∧ (m' = n / d ∨ m' = n / d + 1)
    ∧ (2 * (n mod d) < d → m' = n / d)
    ∧ (d < 2 * (n mod d) → m' = n / d + 1)
    ∧ (d = 2 * (n mod d) → Z.odd (n / d) = true → m' = n / d + 1).
Proof.
  unfold nearest.
  destruct (scaled p q (Z.max (ilog2 p q - 52) (-1074))) as [n d] eqn:E.
  eexists _, _, n, d. split; [reflexivity|]. split; [reflexivity|]. split; [done|].
  destruct (Z.ltb_spec (2 * (n mod d)) d); [repeat split; (by left) || (intros; lia) || done|].
  destruct (Z.ltb_spec d (2 * (n mod d))); [repeat split; (by right) || (intros; lia) || done|].
  rewrite <- Z.negb_odd.
  destruct (Z.odd (n / d)); cbn; repeat split; (by left) || (by right) || (intros; lia) || done.
Qed.

Lemma double_pos p (q : positive) :
  0 < p → Z.pos q ≤ p * 2 ^ 1074 → (0 < double (p # q))%Q.
Proof.
  intros Hp Hsmall. unfold double. cbn [Qnum Qden].
  destruct (nearest_spec p (Z.pos q)) as (m' & t & n & d & -> & Ht & Hsc & Hm & _).
  destruct (scaled_pos p (Z.pos q) t Hp ltac:(done)) as [Hn Hd].
  assert (d ≤ n) as Hdn.
  { pose proof (ilog2_lower p (Z.pos q) Hp ltac:(done)) as Hlow.
    destruct (Z.max_spec (ilog2 p (Z.pos q) - 52) (-1074)) as [[Hlt E]|[Hge E]].
    - assert (t = -1074) as -> by lia.
      rewrite Hsc in Hn, Hd. unfold scaled in Hsc. cbn in Hsc.
      injection Hsc as <- <-. exact Hsmall.
    - pose proof (scaled_mono p (Z.pos q) (ilog2 p (Z.pos q)) t Hp ltac:(done)
                    ltac:(lia) Hlow) as Hmono.
      by rewrite Hsc in Hmono. }
  rewrite Hsc in Hn, Hd. cbn in Hn, Hd.
  pose proof (Z.div_str_pos n d ltac:(lia)) as Hm1.
  assert (1 ≤ m') as Hm' by lia.
  destruct (Z.leb_spec 0 t).
  - pose proof (pow2_ge_1 t ltac:(lia)). unfold Qlt. cbn. nia.
  - rewrite Qred_correct. unfold Qlt. cbn. lia.
Qed.

Lemma double_le_1 p (q : positive) :
  0 < p → p ≤ Z.pos q → (double (p # q) <= 1)%Q.
Proof.
  intros Hp Hle. unfold double. cbn [Qnum Qden].
  destruct (nearest_spec p (Z.pos q))
    as (m' & t & n & d & -> & Ht & Hsc & Hm & Hdown & _).
  pose proof (ilog2_le_0 p (Z.pos q) Hp Hle) as He.
  assert (t < 0) as Hneg by lia.
  unfold scaled in Hsc. destruct (Z.leb_spec 0 t); [lia|].
  injection Hsc as <- <-.
  set (k := 2 ^ (- t)) in *.
  assert (1 ≤ k) as Hk by (apply pow2_ge_1; lia).
  pose proof (Z.div_mod (p * k) (Z.pos q) ltac:(done)) as Hdm.
  pose proof (Z.mod_pos_bound (p * k) (Z.pos q) ltac:(done)) as Hr.
  assert (m' ≤ k) as Hm'.
  { destruct (Z_lt_le_dec (2 * ((p * k) `mod` Z.pos q)) (Z.pos q)) as [Hlt|Hge].
    - rewrite (Hdown Hlt). nia.
    - destruct Hm as [-> | ->]; nia. }
  rewrite Qred_correct. unfold Qle. cbn.
  rewrite Z2Pos.id by lia. lia.
Qed.

Lemma ilog2_int n : 1 ≤ n → ilog2 n 1 = Z.log2 n.
Proof.
  intros Hn. unfold ilog2. change (Z.log2 1) with 0. rewrite Z.sub_0_r.
  pose proof (Z.log2_nonneg n). pose proof (Z.log2_spec n ltac:(lia)) as [Hlow _].
  unfold scaled. destruct (Z.leb_spec 0 (Z.log2 n)); [|lia].
  destruct (Z.leb_spec (1 * 2 ^ Z.log2 n) n); lia.
Qed.

(** The conversion of an int to a float raises exactly from
    2^1024 - 2^970 on; below, the float is at least 1 and less than 2^1024. *)
Lemma float_of_int_spec n :
  1 ≤ n →
  (float_of_int n = None ↔ 2 ^ 1024 - 2 ^ 970 ≤ n)
  ∧ (∀ x, float_of_int n = Some x → (1 <= x)%Q ∧ (x < inject_Z (2 ^ 1024))%Q).
Proof.
  intros Hn.
  assert (∀ x, float_of_int n = Some x → (x < inject_Z (2 ^ 1024))%Q) as Hupper.
  { unfold float_of_int. intros x.
    destruct (Qle_bool _ _) eqn:E; [done|]. intros [= <-].
    apply Qnot_le_lt. intros Hle. apply Qle_bool_iff in Hle. congruence. }
  assert (float_of_int n = None
          ↔ (inject_Z (2 ^ 1024) <= double (inject_Z n))%Q) as Hnone.
  { unfold float_of_int. rewrite <- Qle_bool_iff. by destruct (Qle_bool _ _). }
  assert (∀ x, float_of_int n = Some x → x = double (inject_Z n)) as Hval.
  { unfold float_of_int. intros x. destruct (Qle_bool _ _); [done | by intros [= <-]]. }
  cut ((inject_Z (2 ^ 1024) <= double (inject_Z n) ↔ 2 ^ 1024 - 2 ^ 970 ≤ n)%Q
       ∧ (1 <= double (inject_Z n))%Q).
  { intros [Hiff Hone]. split; [by rewrite Hnone|].
    intros x Hx. split; [by rewrite (Hval x Hx) | by apply Hupper]. }
  clear Hupper Hnone Hval.
  unfold double. cbn [inject_Z Qnum Qden].
  destruct (nearest_spec n 1) as (m' & t & a & d & -> & Ht & Hsc & Hm & Hdown & Hup & Htie).
  rewrite ilog2_int in Ht by done.
  pose proof (Z.log2_nonneg n) as HL0.
  pose proof (Z.log2_spec n ltac:(lia)) as [HL1 HL2].
  set (L := Z.log2 n) in *.
  assert (t = L - 52) as -> by lia.
  assert (2 ^ 1024 = 2 ^ 54 * 2 ^ 970) as E1024 by (by vm_compute).
  assert (2 ^ 1023 = 2 ^ 53 * 2 ^ 970) as E1023 by (by vm_compute).
  assert (2 ^ 971 = 2 * 2 ^ 970) as E971 by (by vm_compute).
  assert (0 < 2 ^ 970) as HP' by (by vm_compute).
  unfold scaled in Hsc. destruct (Z.leb_spec 0 (L - 52)) as [Hbig|Hsmall].
  - (* at least 2^52: the value is an integer *)
    injection Hsc as <- <-. rewrite Z.mul_1_l in *.
    set (P := 2 ^ (L - 52)) in *.
    assert (1 ≤ P) as HP by (apply pow2_ge_1; lia).
    assert (2 ^ L = 2 ^ 52 * P) as EL.
    { unfold P. rewrite <- Z.pow_add_r by lia. f_equal. lia. }
    assert (2 ^ Z.succ L = 2 ^ 53 * P) as ESL.
    { unfold P. rewrite <- Z.pow_add_r by lia. f_equal. lia. }
    pose proof (Z.div_mod n P ltac:(lia)) as Hdm.
    pose proof (Z.mod_pos_bound n P ltac:(lia)) as Hr.
    set (m := n / P) in *. set (r := n `mod` P) in *.
    assert (2 ^ 52 ≤ m < 2 ^ 53) as Hmant by (split; nia).
    split.
    + unfold Qle. cbn. rewrite !Z.mul_1_r.
      destruct (Z_lt_le_dec L 1023) as [Hlow|Hhigh]; [|destruct (Z_lt_le_dec 1023 L) as [Hover|Heq]].
      * (* below 2^1023 *)
        assert (2 ^ Z.succ L ≤ 2 ^ 1023) as Hpow by (apply Z.pow_le_mono_r; lia).
        split; intros Habs; exfalso; destruct Hm as [-> | ->]; nia.
      * (* 2^1024 and more *)
        assert (2 ^ 1024 ≤ 2 ^ L) as Hpow by (apply Z.pow_le_mono_r; lia).
        split; intros _; destruct Hm as [-> | ->]; nia.
      * (* between 2^1023 and 2^1024 *)
        assert (L = 1023) as HL by lia.
        assert (P = 2 * 2 ^ 970) as EP by (unfold P; rewrite HL; exact E971).
        rewrite E1024. rewrite HL, E1023 in EL. clear E1023 E971 ESL HL2.
        set (P' := 2 ^ 970) in *.
        split.
        -- intros Hbig'.
           destruct (Z_lt_le_dec (2 * r) P) as [Hlt|Hge]; [rewrite (Hdown Hlt) in Hbig'; nia|].
           destruct Hm as [Em | Em]; rewrite Em in Hbig'; nia.
        -- intros HT.
           assert (m = 2 ^ 53 - 1) as Em by nia.
           assert (P ≤ 2 * r) as Hge by nia.
           assert (m' = m + 1) as ->.
           { destruct (Z_lt_le_dec P (2 * r)) as [Hgt|Hle]; [by apply Hup|].
             apply Htie; [lia|]. rewrite Em. by vm_compute. }
           nia.
    + unfold Qle. cbn. rewrite !Z.mul_1_r.
      assert (1 ≤ 2 ^ 52) by (by vm_compute).
      destruct Hm as [-> | ->]; nia.
  - (* below 2^52: the value is the int *)
    injection Hsc as <- <-.
    set (k := 2 ^ (- (L - 52))) in *.
    assert (1 ≤ k) as Hk by (apply pow2_ge_1; lia).
    rewrite Z.mod_1_r in Hdown. rewrite Z.div_1_r in Hdown.
    rewrite (Hdown ltac:(lia)).
    assert (2 ^ Z.succ L ≤ 2 ^ 52) as Hpow by (apply Z.pow_le_mono_r; lia).
    assert (2 ^ 52 < 2 ^ 1024 - 2 ^ 970) as Hcmp by (by vm_compute).
    assert (2 ^ 1024 - 2 ^ 970 < 2 ^ 1024) as Hcmp' by (by vm_compute).
    rewrite !Qred_correct. unfold Qle. cbn. rewrite !Z.mul_1_r, ?Z.mul_1_l.
    rewrite Z2Pos.id by lia.
    split; [|nia]. split; intros Habs; exfalso; nia.
Qed.

Lemma double_on_grid x : on_grid (double x).
Proof.
  unfold on_grid, double.
  destruct (nearest_spec (Qnum x) (Z.pos (Qden x))) as (m' & t & n & d & -> & Ht & _).
  assert (0 < 2 ^ 1074) as Hg by (by vm_compute).
  destruct (Z.leb_spec 0 t).
  - exists (m' * 2 ^ t * 2 ^ 1074). unfold Qeq. cbn. rewrite Z2Pos.id by lia. lia.
  - exists (m' * 2 ^ (1074 + t)). rewrite Qred_correct. unfold Qeq. cbn.
    pose proof (pow2_ge_1 (- t) ltac:(lia)).
    rewrite !Z2Pos.id by lia.
    replace (2 ^ 1074) with (2 ^ (1074 + t) * 2 ^ (- t)); [lia|].
    rewrite <- Z.pow_add_r by lia. f_equal. lia.
Qed.

(** A positive rational of at least 2^-1074 rounds to a positive double. *)
Lemma double_pos_grid x :
  (1 # Z.to_pos (2 ^ 1074) <= x)%Q → (0 < double x)%Q.
Proof.
  destruct x as [p q]. unfold Qle. cbn.
  assert (0 < 2 ^ 1074) as Hg by (by vm_compute).
  rewrite Z2Pos.id by lia. intros Hle.
  apply double_pos; nia.
Qed.

(** The difference of two grid points, the smaller taken from the larger,
    is at least one step of the grid. *)
Lemma grid_difference a b :
  on_grid a → on_grid b → (b < a)%Q → (1 # Z.to_pos (2 ^ 1074) <= a - b)%Q.
Proof.
  intros [j Ha] [k Hb] Hlt. rewrite Ha, Hb in Hlt |- *.
  assert (0 < 2 ^ 1074) as Hg by (by vm_compute).
  revert Hlt. unfold Qlt, Qle, Qminus, Qplus, Qopp. cbn.
  rewrite ?Pos2Z.inj_mul, !Z2Pos.id by lia. nia.
Qed.

(** The inverse of a float between 1 and 2^1024 is a positive double of at
    most 1. *)
Lemma double_inverse x :
  (1 <= x)%Q → (x < inject_Z (2 ^ 1024))%Q →
  (0 < double (1 / x))%Q ∧ (double (1 / x) <= 1)%Q.
Proof.
  destruct x as [a b]. intros Hone Hbig.
  unfold Qle in Hone. unfold Qlt in Hbig. cbn in Hone, Hbig.
  rewrite ?Z.mul_1_r, ?Z.mul_1_l in Hone, Hbig.
  destruct a as [|a|a]; [lia | | lia].
  change (1 / (Z.pos a # b))%Q with ((1 * Z.pos b) # (1 * a))%Q.
  change (1 * Z.pos b) with (Z.pos b). change (1 * a)%positive with a.
  assert (2 ^ 1024 ≤ 2 ^ 1074) as Hpow by (by vm_compute).
  assert (0 < 2 ^ 1024) as Hpos by (by vm_compute).
  split; [apply double_pos | apply double_le_1]; nia.
Qed.

(** What line 47 of the one script and line 79 of the other compute from
    the frame rate [n]. *)
Lemma delay_spec n :
  ((x ← float_of_int (Z.max 1 n); Some (double (1 / x))) = None
   ↔ 2 ^ 1024 - 2 ^ 970 ≤ n)
  ∧ (∀ delay, (x ← float_of_int (Z.max 1 n); Some (double (1 / x))) = Some delay →
       (0 < delay)%Q ∧ (delay <= 1)%Q ∧ on_grid delay)
  ∧ (n ≤ 1 → (x ← float_of_int (Z.max 1 n); Some (double (1 / x))) = Some 1%Q).
Proof.
  destruct (float_of_int_spec (Z.max 1 n) ltac:(lia)) as [Hnone Hsome].
  assert (1 < 2 ^ 1024 - 2 ^ 970) as Hcmp by (by vm_compute).
  split; [|split].
  - destruct (float_of_int (Z.max 1 n)) as [x|] eqn:E; cbn.
    + split; [done|]. intros HT. assert (Some x = None) as Habs; [|done].
      apply Hnone. lia.
    + split; [|done]. intros _. pose proof (proj1 Hnone eq_refl). lia.
  - intros delay. destruct (float_of_int (Z.max 1 n)) as [x|] eqn:E; cbn; [|done].
    intros [= <-]. destruct (Hsome x eq_refl) as [H1 H2].
    destruct (double_inverse x H1 H2). repeat split; [done | done | apply double_on_grid].
  - intros Hn. rewrite Z.max_l by done. by vm_compute.
Qed.

(** ** The limiter of the camera script *)

Section limiter.
Variable ImageOps_fit thumbnail : cam_to_matrix.Image → nat → nat → cam_to_matrix.Image.
Variable ImageOps_mirror : cam_to_matrix.Image → cam_to_matrix.Image.
Variable img_rotate : Z → cam_to_matrix.Image → cam_to_matrix.Image.
Variable driver : cam_to_matrix.Args → Matrix.
Variable args : cam_to_matrix.Args.
Variable target : Q.
Hypothesis target_on_grid : on_grid target.

Lemma limiter_positive dt :
  on_grid dt → Forall positive_sleep (cam_to_matrix.limiter target dt).
Proof.
  intros Hdt. unfold cam_to_matrix.limiter, Qltb.
  destruct (Qle_bool target dt) eqn:E; cbn [negb]; [constructor|].
  repeat constructor. cbn.
  apply double_pos_grid, grid_difference; [done | done |].
  apply Qnot_le_lt. intros Hle. apply Qle_bool_iff in Hle. congruence.
Qed.

Lemma run_loop_positive ticks running trace :
  Forall (λ tk, on_grid (cam_to_matrix.dt tk)) ticks →
  Forall positive_sleep trace →
  Forall positive_sleep
    (cam_to_matrix.events_of
       (cam_to_matrix.run_loop ImageOps_fit thumbnail ImageOps_mirror img_rotate driver
          args target ticks running trace)).
Proof.
  intros Hticks. revert running trace.
  induction Hticks as [|tk rest Htk _ IH]; intros running trace Htrace.
  - cbn. by destruct running.
  - cbn. destruct running; [|done].
    destruct (cam_to_matrix.capture_array tk) as [frame|]; [|done].
    apply IH. apply Forall_app. split; [done|].
    constructor; [exact I | by apply limiter_positive].
Qed.

End limiter.

(** * The claims *)

Ltac solve_shape := split; [reflexivity | repeat constructor].

(** C1, as the code has it: for every grid with at least 3 rows and 3
    columns, [step] gives a grid of the same shape in which a cell is alive
    exactly when it has 3 live neighbours among its 8 adjacent cells (row
    and column indices wrapping modulo H and W; the 8 cells are distinct),
    or is alive now and has 2; every other cell is dead.  The rolled sum is
    that number of live neighbours, and the corner (0, 0) has the opposite
    corner (H-1, W-1) among its neighbours. *)
Theorem step_life_rule H W (g : Grid) :
  (3 ≤ H)%nat → (3 ≤ W)%nat → shape H W g →
  shape H W (step g)
  ∧ (∀ r c, (r < H)%nat → (c < W)%nat →
       length (distinct_adjacent H W r c) = 8%nat
       ∧ cell (neighbors g) r c = Some (distinct_live_neighbors H W g r c)
       ∧ ∃ b, cell (step g) r c = Some b
              ∧ (b = true
                 ↔ life_rule (alive g r c) (distinct_live_neighbors H W g r c)))
  ∧ (H - 1, W - 1)%nat ∈ distinct_adjacent H W 0 0
  ∧ (alive g (H - 1) (W - 1) = true → 1 ≤ distinct_live_neighbors H W g 0 0).
Proof.
  intros HH HW Hs. split; [by apply shape_step|]. split.
  - intros r c Hr Hc.
    destruct (distinct_live_neighbors_eq H W g r c HH HW Hr Hc) as [-> ->].
    split; [done|]. split; [by apply neighbors_cell|].
    eexists. split; [by apply (step_cell H W)|].
    unfold life_rule.
    rewrite orb_true_iff, andb_true_iff, !Z.eqb_eq. tauto.
  - destruct (distinct_live_neighbors_eq H W g 0 0 HH HW) as [-> ->]; [lia | lia|].
    assert (adjacent H W 0 0 !! 0%nat = Some (H - 1, W - 1)%nat) as Hfirst.
    { unfold adjacent, directions. simpl.
      rewrite !wrap_pred by lia. by rewrite !decide_True. }
    split; [by eapply list_elem_of_lookup_2|].
    intros Hlive. unfold live_neighbors.
    destruct (adjacent H W 0 0) as [|p ps]; [done|].
    injection Hfirst as ->. rewrite count_live_cons. simpl fst. simpl snd.
    rewrite Hlive. pose proof (count_live_bounds g ps). simpl Z.b2z. lia.
Qed.

Lemma step_life_rule_witness :
  shape 3 3 (step corner3)
  ∧ (∀ r c, (r < 3)%nat → (c < 3)%nat →
       length (distinct_adjacent 3 3 r c) = 8%nat
       ∧ cell (neighbors corner3) r c = Some (distinct_live_neighbors 3 3 corner3 r c)
       ∧ ∃ b, cell (step corner3) r c = Some b
              ∧ (b = true
                 ↔ life_rule (alive corner3 r c) (distinct_live_neighbors 3 3 corner3 r c)))
  ∧ (3 - 1, 3 - 1)%nat ∈ distinct_adjacent 3 3 0 0
  ∧ (alive corner3 (3 - 1) (3 - 1) = true → 1 ≤ distinct_live_neighbors 3 3 corner3 0 0).
Proof.
  apply (step_life_rule 3 3 corner3); [lia | lia | solve_shape].
Defined.

(** C1 as stated fails on boards with fewer than 3 rows or columns: on the
    full 2 x 2 board the cell (0, 0) is alive and has 3 live neighbours, the
    three other cells, yet [step] leaves it dead; and on the 2 x 2 board
    with (0, 0) alone dead, that cell has 3 live neighbours and stays
    dead. *)
Lemma step_life_rule_counterexample :
  shape 2 2 (ones 2 2)
  ∧ alive (ones 2 2) 0 0 = true
  ∧ distinct_adjacent 2 2 0 0 = [(0, 1); (1, 0); (1, 1)]%nat
  ∧ distinct_live_neighbors 2 2 (ones 2 2) 0 0 = 3
  ∧ cell (step (ones 2 2)) 0 0 = Some false
  ∧ alive (board [".#"; "##"]) 0 0 = false
  ∧ distinct_live_neighbors 2 2 (board [".#"; "##"]) 0 0 = 3
  ∧ cell (step (board [".#"; "##"])) 0 0 = Some false.
Proof. repeat split; try reflexivity; repeat constructor. Qed.

(** C2, as the code has it: on the 2 x 2 grid with every cell alive the
    rolled sum is 8 at every cell (none of the 8 offsets leads back to the
    cell, two lead to each side neighbour and four to the diagonal one), so
    [step] gives the all-dead 2 x 2 grid. *)
Theorem step_full_2x2 :
  neighbors (ones 2 2) = [[8; 8]; [8; 8]]
  ∧ (∀ r c, (r < 2)%nat → (c < 2)%nat → live_neighbors 2 2 (ones 2 2) r c = 8)
  ∧ step (ones 2 2) = zeros_bool 2 2.
Proof.
  split; [reflexivity|]. split; [|reflexivity].
  intros r c Hr Hc. by apply live_neighbors_ones.
Qed.

(** C2 as stated fails: the count at a cell of the full 2 x 2 grid is 8, not
    3, and [step] does not give the full grid back. *)
Lemma step_full_2x2_counterexample :
  cell (neighbors (ones 2 2)) 0 0 = Some 8
  ∧ cell (neighbors (ones 2 2)) 0 0 ≠ Some 3
  ∧ step (ones 2 2) = [[false; false]; [false; false]]
  ∧ step (ones 2 2) ≠ ones 2 2.
Proof. repeat split; try reflexivity; discriminate. Qed.

(** C10: on a grid with at least 3 rows and 3 columns the rolled sum at a
    cell is the number of live cells among its 8 distinct adjacent cells; on
    a grid with fewer than 3 rows or columns the 8 offsets reach some cell
    twice (the cell itself when there is a single row or column), and on the
    full grid the rolled sum, 8, exceeds the number of distinct live
    neighbours at every cell. *)
Theorem rolled_sum_vs_distinct_neighbors :
  (∀ H W (g : Grid) r c,
     (3 ≤ H)%nat → (3 ≤ W)%nat → shape H W g → (r < H)%nat → (c < W)%nat →
     length (distinct_adjacent H W r c) = 8%nat
     ∧ cell (neighbors g) r c = Some (distinct_live_neighbors H W g r c))
  ∧ (∀ H W r c,
       (0 < H)%nat → (0 < W)%nat → (H < 3 ∨ W < 3)%nat → (r < H)%nat → (c < W)%nat →
       ¬ NoDup (adjacent H W r c)
       ∧ cell (neighbors (ones H W)) r c = Some 8
       ∧ distinct_live_neighbors H W (ones H W) r c < 8)
  ∧ (∀ H W r c,
       (H = 1 ∨ W = 1)%nat → (r < H)%nat → (c < W)%nat → (r, c) ∈ adjacent H W r c).
Proof.
  split; [|split].
  - intros H W g r c HH HW Hs Hr Hc.
    pose proof (NoDup_adjacent H W r c HH HW Hr Hc) as Hnd.
    unfold distinct_live_neighbors, distinct_adjacent.
    rewrite (remove_dups_NoDup _ Hnd). split; [done|].
    by apply neighbors_cell.
  - intros H W r c HH HW Hsmall Hr Hc.
    pose proof (dup_adjacent H W r c HH HW Hsmall Hr Hc) as Hdup.
    split; [done|]. split.
    + rewrite (neighbors_cell H W) by (done || apply shape_replicate).
      by rewrite live_neighbors_ones.
    + unfold distinct_live_neighbors, distinct_adjacent.
      pose proof (count_live_bounds (ones H W) (remove_dups (adjacent H W r c))).
      pose proof (length_remove_dups_lt _ Hdup) as Hlt.
      change (length (adjacent H W r c)) with 8%nat in Hlt. lia.
  - intros H W r c [->| ->] Hr Hc.
    + assert (r = 0)%nat as -> by lia.
      apply (list_elem_of_lookup_2 _ 6%nat). unfold adjacent, directions. simpl.
      by rewrite wrap_0, wrap_succ by done.
    + assert (c = 0)%nat as -> by lia.
      apply (list_elem_of_lookup_2 _ 4%nat). unfold adjacent, directions. simpl.
      by rewrite wrap_0, wrap_succ by done.
Qed.

Lemma rolled_sum_vs_distinct_neighbors_witness :
  cell (neighbors blinker) 2 2 = Some (distinct_live_neighbors 5 5 blinker 2 2)
  ∧ cell (neighbors (ones 2 2)) 1 0 = Some 8
  ∧ distinct_live_neighbors 2 2 (ones 2 2) 1 0 < 8
  ∧ (0, 0)%nat ∈ adjacent 1 1 0 0.
Proof.
  destruct rolled_sum_vs_distinct_neighbors as (Hbig & Hsmall & Hself).
  split; [|split; [|split]].
  - apply (Hbig 5 5 blinker 2 2)%nat; [lia | lia | solve_shape | lia | lia].
  - apply (Hsmall 2 2 1 0)%nat; lia.
  - apply (Hsmall 2 2 1 0)%nat; lia.
  - apply (Hself 1 1 0 0)%nat; [left; reflexivity | lia | lia].
Defined.

(** C3, as the code has it: the candidate is compared with the grid of two
    generations before, which catches stagnation of period 1 and of period
    2.  Started at an oscillator [G] of period 2 (all states non-empty), the
    simulation shows [step G], then discards the candidate [G] and reseeds.
    Started at a periodic [G] that does not come back after two generations
    (period greater than 2, all states non-empty), it never discards a
    candidate: after [n] generations it holds the [n]-th state of the
    oscillator and the generator is untouched. *)
Theorem oscillator_policy H W d gen (G : Grid) :
  (step (step G) = G → step G ≠ G → any (step G) = true →
     run H W d 1 (mkSim G G gen) = mkSim (step G) G gen
     ∧ degenerate (step (step G)) G = true
     ∧ run H W d 2 (mkSim G G gen)
       = mkSim (seed_grid H W d gen).1 (step G) (seed_grid H W d gen).2)
  ∧ (∀ p, (0 < p)%nat → generations p G = G → step (step G) ≠ G →
       (∀ k, (k < p)%nat → any (generations k G) = true) →
       ∀ n, run H W d n (mkSim G G gen)
            = mkSim (generations n G) (generations (pred n) G) gen
            ∧ degenerate (step (generations n G)) (generations (pred n) G) = false).
Proof.
  split.
  - intros H2 H1 Hany.
    assert (run H W d 1 (mkSim G G gen) = mkSim (step G) G gen) as E1.
    { unfold run. simpl. apply advance_keep. simpl. by apply degenerate_false. }
    assert (degenerate (step (step G)) G = true) as Hd
      by (apply degenerate_true; by right).
    split; [done|]. split; [done|].
    change (run H W d 2 (mkSim G G gen))
      with (advance H W d (run H W d 1 (mkSim G G gen))).
    rewrite E1. by apply advance_reseed.
  - intros p Hpos Hp Hno2 Hlive.
    assert (∀ n, any (generations n G) = true) as Hany.
    { intros n. rewrite (generations_mod p) by done.
      apply Hlive, Nat.mod_upper_bound. lia. }
    assert (∀ n, degenerate (step (generations n G)) (generations (pred n) G) = false)
      as Hkeep.
    { intros n. apply degenerate_false. split; [apply (Hany (S n))|].
      destruct n as [|n]; simpl.
      - intros E. apply Hno2. change (generations 0 G) with G in E.
        by rewrite !E.
      - intros E. apply Hno2, (generations_two_cycle p G n); [done | done|].
        exact E. }
    intros n. split; [|apply Hkeep].
    induction n as [|n IH]; [done|].
    change (run H W d (S n) (mkSim G G gen))
      with (advance H W d (run H W d n (mkSim G G gen))).
    rewrite IH. rewrite advance_keep by apply Hkeep. done.
Qed.

Lemma oscillator_policy_witness :
  (run 5 5 (1 # 4) 2 (mkSim blinker blinker (constant_rng (1 # 2)))
   = mkSim (seed_grid 5 5 (1 # 4) (constant_rng (1 # 2))).1 (step blinker)
           (seed_grid 5 5 (1 # 4) (constant_rng (1 # 2))).2)
  ∧ (run 6 6 (1 # 4) 30 (mkSim glider glider (constant_rng (1 # 2)))
     = mkSim (generations 30 glider) (generations 29 glider) (constant_rng (1 # 2))).
Proof.
  split.
  - apply (oscillator_policy 5 5 (1 # 4) (constant_rng (1 # 2)) blinker);
      [reflexivity | discriminate | reflexivity].
  - apply (oscillator_policy 6 6 (1 # 4) (constant_rng (1 # 2)) glider) with (p := 24%nat).
    + lia.
    + vm_compute. reflexivity.
    + vm_compute. discriminate.
    + intros k Hk. do 24 (destruct k as [|k]; [vm_compute; reflexivity|]). lia.
Defined.

(** C3 as stated fails on the blinker, an oscillator of period 2 whose two
    states are non-empty: after its first generation the candidate is
    discarded and the grid is reseeded (25 draws are consumed). *)
Lemma oscillator_policy_counterexample :
  step (step blinker) = blinker
  ∧ step blinker ≠ blinker
  ∧ any blinker = true ∧ any (step blinker) = true
  ∧ grid (run 5 5 (1 # 4) 1 (mkSim blinker blinker (constant_rng (1 # 8)))) = step blinker
  ∧ degenerate (step (step blinker)) blinker = true
  ∧ grid (run 5 5 (1 # 4) 2 (mkSim blinker blinker (constant_rng (1 # 8)))) = ones 5 5
  ∧ cursor (rng (run 5 5 (1 # 4) 2 (mkSim blinker blinker (constant_rng (1 # 2))))) = 25%nat.
Proof. repeat split; try reflexivity; discriminate. Qed.

(** C4, as the code has it: for every non-empty still life [G], a
    simulation holding [G] whose previous grid is [G] too (the still life
    was shown twice, or is the seed) reseeds at the next generation; one
    holding [G] after a different grid shows [G] once more, and reseeds at
    the generation after that. *)
Theorem still_life_policy H W d (G : Grid) s :
  step G = G → any G = true → grid s = G →
  (prev s = G →
     advance H W d s
     = mkSim (seed_grid H W d (rng s)).1 G (seed_grid H W d (rng s)).2)
  ∧ (prev s ≠ G →
       advance H W d s = mkSim G G (rng s)
       ∧ advance H W d (advance H W d s)
         = mkSim (seed_grid H W d (rng s)).1 G (seed_grid H W d (rng s)).2).
Proof.
  intros Hstill Hany Hg.
  assert (∀ s', grid s' = G → prev s' = G →
            advance H W d s'
            = mkSim (seed_grid H W d (rng s')).1 G (seed_grid H W d (rng s')).2) as Hre.
  { intros s' Hg' Hp'. rewrite advance_reseed.
    - by rewrite Hg'.
    - apply degenerate_true. right. by rewrite Hg', Hp'. }
  split; [by apply Hre|].
  intros Hne.
  assert (advance H W d s = mkSim G G (rng s)) as E.
  { rewrite advance_keep.
    - by rewrite Hg, Hstill.
    - apply degenerate_false. rewrite Hg, Hstill. split; [done | congruence]. }
  split; [done|]. rewrite E.
  apply (Hre (mkSim G G (rng s))); reflexivity.
Qed.

Lemma still_life_policy_witness :
  advance 4 4 (1 # 4) (mkSim block tromino (constant_rng (1 # 8)))
  = mkSim block block (constant_rng (1 # 8))
  ∧ advance 4 4 (1 # 4) (advance 4 4 (1 # 4) (mkSim block tromino (constant_rng (1 # 8))))
    = mkSim (seed_grid 4 4 (1 # 4) (constant_rng (1 # 8))).1 block
            (seed_grid 4 4 (1 # 4) (constant_rng (1 # 8))).2.
Proof.
  apply (still_life_policy 4 4 (1 # 4) block (mkSim block tromino (constant_rng (1 # 8))));
    [reflexivity | reflexivity | reflexivity | discriminate].
Defined.

(** C4 as stated fails: seeded with the tromino, the simulation shows the
    block (a still life) at its first generation and the block again at its
    second, without drawing from the generator; the third is the reseeded
    grid. *)
Lemma still_life_policy_counterexample :
  step block = block ∧ any block = true
  ∧ grid (run 4 4 (1 # 4) 1 (mkSim tromino tromino (constant_rng (1 # 8)))) = block
  ∧ run 4 4 (1 # 4) 2 (mkSim tromino tromino (constant_rng (1 # 8)))
    = mkSim block block (constant_rng (1 # 8))
  ∧ grid (run 4 4 (1 # 4) 3 (mkSim tromino tromino (constant_rng (1 # 8)))) = ones 4 4
  ∧ frames 4 4 (1 # 4) 3 (mkSim tromino tromino (constant_rng (1 # 8)))
    = [render 4 4 block; render 4 4 block; render 4 4 (ones 4 4)].
Proof. repeat split; reflexivity. Qed.

(** C9, as the code has it: when [step] leaves no live cell, the iteration
    discards the candidate, draws a fresh grid with the configured density
    and pushes that one; the loop goes on as after any other iteration.  The
    fresh grid has a live cell exactly when one of its H * W draws is below
    the density. *)
Theorem extinction_reseeds (driver : Args → Matrix) (args : Args) (delay : Q)
    (st : Loop) :
  any (step (grid (sim st))) = false →
  ∃ fresh gen',
    seed_grid (height (driver args)) (width (driver args)) (seed args) (rng (sim st))
    = (fresh, gen')
    ∧ iteration driver args delay st
      = {| sim := mkSim fresh (grid (sim st)) gen';
           running := running st;
           trace := trace st ++ [SetImage (render (height (driver args)) (width (driver args)) fresh);
                                 Sleep delay] |}
    ∧ shape (height (driver args)) (width (driver args)) fresh
    ∧ (any fresh = true ↔
       ∃ r c, (r < height (driver args))%nat ∧ (c < width (driver args))%nat
              ∧ (draws (rng (sim st))
                   (cursor (rng (sim st)) + r * width (driver args) + c)%nat < seed args)%Q).
Proof.
  intros Hdead.
  set (H := height (driver args)). set (W := width (driver args)).
  exists (seed_grid H W (seed args) (rng (sim st))).1,
         (seed_grid H W (seed args) (rng (sim st))).2.
  split; [by destruct (seed_grid _ _ _ _)|]. split; [|split].
  - rewrite iteration_eq. fold H W.
    rewrite advance_reseed by (apply degenerate_true; by left). done.
  - apply shape_seed_grid.
  - rewrite any_true. split.
    + intros (r & c & Hcell). exists r, c. by apply seed_grid_live.
    + intros (r & c & Hlive). exists r, c. by apply seed_grid_live.
Qed.

Lemma extinction_reseeds_witness :
  grid (first_state 4 4 (1 # 4) (lonely_rng (1 # 8))) = lonely
  ∧ ∃ fresh gen',
    seed_grid 4 4 (1 # 4) (rng (first_state 4 4 (1 # 4) (lonely_rng (1 # 8))))
    = (fresh, gen')
    ∧ iteration panel4 (args_with_seed (1 # 4)) thirtieth
        (mkLoop (first_state 4 4 (1 # 4) (lonely_rng (1 # 8))) true
           [RGBMatrix (args_with_seed (1 # 4))])
      = {| sim := mkSim fresh lonely gen';
           running := true;
           trace := [RGBMatrix (args_with_seed (1 # 4))]
                    ++ [SetImage (render 4 4 fresh); Sleep thirtieth] |}
    ∧ shape 4 4 fresh
    ∧ (any fresh = true ↔
       ∃ r c, (r < 4)%nat ∧ (c < 4)%nat
              ∧ (draws (lonely_rng (1 # 8)) (16 + r * 4 + c)%nat < 1 # 4)%Q).
Proof.
  split; [reflexivity|].
  apply (extinction_reseeds panel4 (args_with_seed (1 # 4)) thirtieth
           (mkLoop (first_state 4 4 (1 # 4) (lonely_rng (1 # 8))) true
              [RGBMatrix (args_with_seed (1 # 4))])).
  reflexivity.
Defined.

(** C9 as stated fails.  With the default density 1/4 and a generator that
    seeds a lone cell and then draws 1/2 throughout, the lone cell dies, the
    candidate is discarded, and the freshly drawn grid, which is empty, is
    the one pushed.  With the density 0 the program seeds the empty grid,
    whose next generation is empty, and pushes the empty reseeded grid. *)
Lemma extinction_reseeds_counterexample :
  grid (first_state 4 4 (1 # 4) (lonely_rng (1 # 2))) = lonely
  ∧ any (step lonely) = false
  ∧ main panel4 (args_with_seed (1 # 4)) (lonely_rng (1 # 2)) false [true]
    = Returned [RGBMatrix (args_with_seed (1 # 4));
                SetImage (render 4 4 (zeros_bool 4 4)); Sleep thirtieth; Clear]
  ∧ grid (first_state 4 4 0 (constant_rng (1 # 2))) = zeros_bool 4 4
  ∧ any (step (zeros_bool 4 4)) = false
  ∧ main panel4 (args_with_seed 0) (constant_rng (1 # 2)) false [true]
    = Returned [RGBMatrix (args_with_seed 0);
                SetImage (render 4 4 (zeros_bool 4 4)); Sleep thirtieth; Clear]
  ∧ any (zeros_bool 4 4) = false.
Proof. repeat split; vm_compute; reflexivity. Qed.

(** C8: for every grid of shape H x W, at least 1 x 1, [render] gives a
    frame of H rows of W pixels whose pixel at (r, c) is (255, 255, 255)
    exactly when the cell (r, c) is alive, and (0, 0, 0) exactly when it is
    dead. *)
Theorem render_pixels H W (g : Grid) :
  (1 ≤ H)%nat → (1 ≤ W)%nat → shape H W g →
  shape H W (render H W g)
  ∧ ∀ r c, (r < H)%nat → (c < W)%nat →
      ∃ px, cell (render H W g) r c = Some px
            ∧ (px = [255; 255; 255] ↔ alive g r c = true)
            ∧ (px = [0; 0; 0] ↔ alive g r c = false).
Proof.
  intros _ _ Hs. split; [by apply shape_render|].
  intros r c Hr Hc. eexists. split; [by apply cell_render|].
  destruct (alive g r c); split; split; (done || discriminate).
Qed.

Lemma render_pixels_witness :
  shape 5 5 (render 5 5 blinker)
  ∧ ∀ r c, (r < 5)%nat → (c < 5)%nat →
      ∃ px, cell (render 5 5 blinker) r c = Some px
            ∧ (px = [255; 255; 255] ↔ alive blinker r c = true)
            ∧ (px = [0; 0; 0] ↔ alive blinker r c = false).
Proof.
  apply (render_pixels 5 5 blinker); [lia | lia | solve_shape].
Defined.

(** C7: in every run in which the loop is reached (line 47 has given the
    frame delay) and the interrupt arrives, [main] returns; the iteration
    during which it arrives is completed and is the last one; the trace is
    the construction of the matrix, the pushed frames with their sleeps, and
    one [Clear], which comes last, after every [SetImage]. *)
Theorem cancellation_clears driver args gen (early : bool) (sched : list bool) delay :
  frame_delay args = Some delay →
  early = true ∨ true ∈ sched →
  ∃ fs,
    main driver args gen early sched
    = Returned (RGBMatrix args :: pushes delay fs ++ [Clear])
    ∧ (Clear ∉ RGBMatrix args :: pushes delay fs)
    ∧ length fs = (if early then 0%nat else iterations sched)
    ∧ (∀ pre post, early = false → sched = pre ++ true :: post →
         Forall (λ b, b = false) pre → length fs = S (length pre))
    ∧ (∀ i j f,
         events_of (main driver args gen early sched) !! i = Some Clear →
         events_of (main driver args gen early sched) !! j = Some (SetImage f) →
         (j < i)%nat).
Proof.
  intros Hdelay Hsig. rewrite (main_spec _ _ _ _ _ delay Hdelay).
  assert ((early || cancelled sched) = true) as ->.
  { destruct Hsig as [->|Hin]; [done|].
    apply cancelled_true in Hin. rewrite Hin. by destruct early. }
  eexists. split; [reflexivity|].
  set (fs := frames _ _ _ _ _).
  assert (Clear ∉ (RGBMatrix args :: pushes delay fs)) as Hno.
  { apply not_elem_of_cons. split; [done | apply not_clear_pushes]. }
  split; [done|]. split; [apply length_frames|]. split.
  - intros pre post -> -> Hpre. unfold fs.
    rewrite length_frames. by apply iterations_cancelled.
  - cbn [events_of]. intros i j f Hi Hj.
    set (body := RGBMatrix args :: pushes delay fs) in *.
    change (RGBMatrix args :: pushes delay fs ++ [Clear])
      with (body ++ [Clear]) in Hi, Hj.
    assert (i = length body) as ->.
    { destruct (decide (i < length body)%nat) as [Hlt|Hge].
      - rewrite lookup_app_l in Hi by done.
        destruct Hno. by eapply list_elem_of_lookup_2.
      - apply lookup_lt_Some in Hi. rewrite length_app in Hi.
        change (length [Clear]) with 1%nat in Hi. lia. }
    destruct (decide (j < length body)%nat) as [Hlt|Hge]; [done|].
    pose proof (lookup_lt_Some _ _ _ Hj) as Hb. rewrite length_app in Hb.
    change (length [Clear]) with 1%nat in Hb.
    assert (j = length body) as -> by lia.
    rewrite lookup_app_r, Nat.sub_diag in Hj by done. done.
Qed.

Lemma cancellation_clears_witness :
  frame_delay (args_with_seed (1 # 4)) = Some thirtieth
  ∧ ∃ fs,
    main panel4 (args_with_seed (1 # 4)) (constant_rng (1 # 8)) false [false; true; false]
    = Returned (RGBMatrix (args_with_seed (1 # 4)) :: pushes thirtieth fs ++ [Clear])
    ∧ (Clear ∉ RGBMatrix (args_with_seed (1 # 4)) :: pushes thirtieth fs)
    ∧ length fs = iterations [false; true; false]
    ∧ (∀ pre post, false = false → [false; true; false] = pre ++ true :: post →
         Forall (λ b, b = false) pre → length fs = S (length pre))
    ∧ (∀ i j f,
         events_of (main panel4 (args_with_seed (1 # 4)) (constant_rng (1 # 8)) false
                      [false; true; false]) !! i = Some Clear →
         events_of (main panel4 (args_with_seed (1 # 4)) (constant_rng (1 # 8)) false
                      [false; true; false]) !! j = Some (SetImage f) →
         (j < i)%nat).
Proof.
  split; [vm_compute; reflexivity|].
  apply (cancellation_clears panel4 (args_with_seed (1 # 4)) (constant_rng (1 # 8))
           false [false; true; false] thirtieth).
  - vm_compute. reflexivity.
  - right. apply (list_elem_of_lookup_2 _ 1%nat). reflexivity.
Defined.

(** C5, as the code has it: the loop reads no clock.  After every pushed
    frame it sleeps, unconditionally, for the whole frame budget, which is
    computed once, before the loop, as 1 / max(1, fps): when that
    computation has given [delay], a run's trace is the construction of the
    matrix and, per iteration, one [SetImage] followed by one [Sleep] of
    [delay] (then [Clear] when the run was cancelled). *)
Theorem pacing_sleeps driver args gen (early : bool) (sched : list bool) delay :
  frame_delay args = Some delay →
  ∃ fs,
    events_of (main driver args gen early sched)
    = RGBMatrix args :: pushes delay fs
      ++ (if early || cancelled sched then [Clear] else [])
    ∧ length fs = (if early then 0%nat else iterations sched)
    ∧ sleeps (events_of (main driver args gen early sched))
      = replicate (length fs) delay
    ∧ (∀ i f, events_of (main driver args gen early sched) !! i = Some (SetImage f) →
         events_of (main driver args gen early sched) !! S i = Some (Sleep delay)).
Proof.
  intros Hdelay. rewrite (main_spec _ _ _ _ _ delay Hdelay).
  set (fs := frames _ _ _ _ _).
  exists fs.
  assert (events_of
            (if early || cancelled sched
             then Returned ((RGBMatrix args :: pushes delay fs) ++ [Clear])
             else Looping (RGBMatrix args :: pushes delay fs))
          = RGBMatrix args :: pushes delay fs
            ++ (if early || cancelled sched then [Clear] else [])) as ->.
  { destruct (early || cancelled sched); cbn [events_of]; [done|].
    by rewrite app_nil_r. }
  split; [done|]. split; [apply length_frames|]. split.
  - change (RGBMatrix args :: pushes delay fs ++ _)
      with ([RGBMatrix args] ++ pushes delay fs
            ++ (if early || cancelled sched then [Clear] else [])).
    rewrite !sleeps_app, sleeps_pushes.
    destruct (early || cancelled sched); cbn; by rewrite app_nil_r.
  - set (tl := if early || cancelled sched then [Clear] else []).
    intros [|i] f Hi; [done|].
    change ((pushes delay fs ++ tl) !! i = Some (SetImage f)) in Hi.
    change ((pushes delay fs ++ tl) !! S i = Some (Sleep delay)).
    destruct (decide (i < length (pushes delay fs))%nat) as [Hlt|Hge].
    + rewrite lookup_app_l in Hi by done.
      destruct (pushes_lookup _ _ _ _ Hi) as [(f' & _ & Hnext)|Habs]; [|done].
      by apply lookup_app_l_Some.
    + rewrite lookup_app_r in Hi by lia. unfold tl in Hi.
      destruct (early || cancelled sched); [|done].
      by destruct (i - length (pushes delay fs))%nat.
Qed.

Lemma pacing_sleeps_witness :
  sleeps (events_of (main panel4 (args_with_seed (1 # 4)) (constant_rng (1 # 8)) false
                       [false; false; true]))
  = [thirtieth; thirtieth; thirtieth].
Proof.
  destruct (pacing_sleeps panel4 (args_with_seed (1 # 4)) (constant_rng (1 # 8)) false
              [false; false; true] thirtieth)
    as (fs & _ & Hlen & Hsleeps & _); [vm_compute; reflexivity|].
  rewrite Hsleeps, Hlen. reflexivity.
Defined.

(** C5 as stated fails: with 30 frames per second the budget is the double
    1/30; a run of one iteration sleeps that budget whatever time the
    iteration took, where the stated pacing sleeps the budget less 1/60 s
    after 1/60 s of work and does not sleep after a full second of work. *)
Lemma pacing_sleeps_counterexample :
  frame_delay (args_with_seed (1 # 4)) = Some thirtieth
  ∧ sleeps (events_of (main panel4 (args_with_seed (1 # 4)) (constant_rng (1 # 8)) false
                         [true]))
    = [thirtieth]
  ∧ sleeps (paced_sleep thirtieth 1) = []
  ∧ sleeps (paced_sleep thirtieth (1 # 60)) = [(thirtieth - (1 # 60))%Q]
  ∧ ¬ (thirtieth == thirtieth - (1 # 60))%Q.
Proof. repeat split; try (vm_compute; reflexivity). discriminate. Qed.

(** C6, as the code has it: no seed density is rejected.  For every
    configuration, the density inside [0, 1] or not, the first thing [main]
    does is construct the matrix, and when line 47 has given the frame
    delay and the interrupt has not arrived before the first test of the
    loop, it enters the loop and pushes a frame. *)
Theorem no_density_check driver args gen :
  (∀ (early : bool) sched,
     ¬ rejected (main driver args gen early sched)
     ∧ ∃ rest, events_of (main driver args gen early sched) = RGBMatrix args :: rest)
  ∧ (∀ delay sigint sched,
       frame_delay args = Some delay →
       ∃ f rest, events_of (main driver args gen false (sigint :: sched))
                 = RGBMatrix args :: SetImage f :: Sleep delay :: rest).
Proof.
  split.
  - intros early sched. unfold rejected.
    destruct (frame_delay args) as [delay|] eqn:Hdelay.
    + rewrite (main_spec _ _ _ _ _ delay Hdelay).
      destruct (early || cancelled sched); cbn [events_of]; split; try done; eauto.
    + rewrite main_raises by done. split; [done | eauto].
  - intros delay sigint sched Hdelay. rewrite (main_spec _ _ _ _ _ delay Hdelay).
    cbn [orb iterations]. rewrite frames_succ, pushes_cons.
    destruct (cancelled (sigint :: sched)); cbn [events_of]; eauto.
Qed.

Lemma no_density_check_witness :
  ∃ f rest, events_of (main panel4 (args_with_seed (-1 # 2)) (constant_rng (1 # 2)) false
                         [false; true])
            = RGBMatrix (args_with_seed (-1 # 2)) :: SetImage f :: Sleep thirtieth :: rest.
Proof.
  apply (no_density_check panel4 (args_with_seed (-1 # 2)) (constant_rng (1 # 2))).
  vm_compute. reflexivity.
Defined.

(** C6 as stated fails for the density 3/2: the matrix is constructed, the
    loop is entered and a frame, fully lit, is pushed. *)
Lemma no_density_check_counterexample :
  ¬ (0 <= seed (args_with_seed (3 # 2)) <= 1)%Q
  ∧ main panel4 (args_with_seed (3 # 2)) (constant_rng (1 # 2)) false [true]
    = Returned [RGBMatrix (args_with_seed (3 # 2));
                SetImage (render 4 4 (ones 4 4)); Sleep thirtieth; Clear]
  ∧ ¬ rejected (main panel4 (args_with_seed (3 # 2)) (constant_rng (1 # 2)) false [true]).
Proof.
  split; [|split].
  - intros [_ Hle]. revert Hle. apply Qlt_not_le. reflexivity.
  - vm_compute. reflexivity.
  - vm_compute. discriminate.
Qed.

(** * Further properties of the two programs *)

(** X1: the board has no edge: rolling a grid by any number of rows and
    columns and then taking a generation gives the generation of the grid,
    rolled the same way. *)
Theorem step_commutes_with_roll H W (dy dx : Z) (g : Grid) :
  shape H W g →
  step (roll_axis1 dx (roll_axis0 dy g)) = roll_axis1 dx (roll_axis0 dy (step g)).
Proof.
  intros Hs.
  rewrite (step_roll_axis1 H W) by (by apply shape_roll_axis0).
  by rewrite (step_roll_axis0 H W).
Qed.

Lemma step_commutes_with_roll_witness :
  step (roll_axis1 2 (roll_axis0 (-7) glider)) = roll_axis1 2 (roll_axis0 (-7) (step glider)).
Proof. apply (step_commutes_with_roll 6 6 (-7) 2 glider). solve_shape. Defined.

(** X2: on a board of any size the all-dead grid and the all-alive grid both
    step to the all-dead grid (nothing is born from nothing, and a cell with
    8 live neighbours dies), so from either the simulation discards the
    candidate and draws a fresh grid. *)
Theorem uniform_boards_reseed H W :
  step (zeros_bool H W) = zeros_bool H W
  ∧ step (ones H W) = zeros_bool H W
  ∧ ∀ d s, grid s = zeros_bool H W ∨ grid s = ones H W →
      advance H W d s
      = mkSim (seed_grid H W d (rng s)).1 (grid s) (seed_grid H W d (rng s)).2.
Proof.
  split; [apply step_zeros|]. split; [apply step_ones|].
  intros d s Hg. apply advance_reseed, degenerate_true. left.
  destruct Hg as [-> | ->]; rewrite ?step_zeros, ?step_ones; apply any_zeros.
Qed.

(** X3: with draws in [0, 1), a density of 1 or more lights every pixel
    of every frame the program pushes, and a density of 0 or less leaves
    every frame black. *)
Theorem saturated_density driver args gen (early : bool) (sched : list bool) :
  (∀ n, (0 <= draws gen n)%Q ∧ (draws gen n < 1)%Q) →
  ((1 <= seed args)%Q →
     ∀ f, SetImage f ∈ events_of (main driver args gen early sched) →
          f = replicate (height (driver args))
                (replicate (width (driver args)) [255; 255; 255]))
  ∧ ((seed args <= 0)%Q →
       ∀ f, SetImage f ∈ events_of (main driver args gen early sched) →
            f = zeros (height (driver args)) (width (driver args))).
Proof.
  intros Hdraw. split; intros Hd f Hf; apply main_frames in Hf.
  - rewrite <- render_ones. revert Hf. apply frames_full; [|done|].
    + intros k. apply Hdraw.
    + apply seed_grid_full; [|done]. intros k. apply Hdraw.
  - rewrite <- render_zeros. revert Hf. apply frames_empty; [|done|].
    + intros k. apply Hdraw.
    + apply seed_grid_empty; [|done]. intros k. apply Hdraw.
Qed.

Lemma saturated_density_witness :
  render 4 4 (ones 4 4) = replicate 4 (replicate 4 [255; 255; 255])
  ∧ render 4 4 (zeros_bool 4 4) = zeros 4 4.
Proof.
  split.
  - apply (saturated_density panel4 (args_with_seed (3 # 2)) (constant_rng (1 # 2))
             false [false; true]).
    + intros n. split; [discriminate | reflexivity].
    + discriminate.
    + apply (list_elem_of_lookup_2 _ 1%nat). reflexivity.
  - apply (saturated_density panel4 (args_with_seed (-1 # 2)) (constant_rng (1 # 2))
             false [false; true]).
    + intros n. split; [discriminate | reflexivity].
    + discriminate.
    + apply (list_elem_of_lookup_2 _ 1%nat). reflexivity.
Defined.

(** X4: every frame the program pushes has the height and width the matrix
    reported, and each of its pixels is (0, 0, 0) or (255, 255, 255). *)
Theorem pushed_frames_fit_matrix driver args gen (early : bool) (sched : list bool) f :
  SetImage f ∈ events_of (main driver args gen early sched) →
  shape (height (driver args)) (width (driver args)) f
  ∧ ∀ r c px, cell f r c = Some px → px = [0; 0; 0] ∨ px = [255; 255; 255].
Proof.
  intros Hf. apply main_frames in Hf.
  apply frames_render in Hf as (g & Hg & ->); [|apply shape_seed_grid].
  split; [by apply shape_render|].
  intros r c px Hpx.
  destruct (cell_in_range _ _ _ r c px (shape_render _ _ g Hg) Hpx) as [Hr Hc].
  rewrite cell_render in Hpx by done. injection Hpx as <-.
  destruct (alive g r c); [by right | by left].
Qed.

Lemma pushed_frames_fit_matrix_witness :
  shape 4 4 (render 4 4 (ones 4 4))
  ∧ ∀ r c px, cell (render 4 4 (ones 4 4)) r c = Some px →
      px = [0; 0; 0] ∨ px = [255; 255; 255].
Proof.
  apply (pushed_frames_fit_matrix panel4 (args_with_seed (3 # 2)) (constant_rng (1 # 2))
           false [true]).
  apply elem_of_cons. right. apply elem_of_cons. left. reflexivity.
Defined.

(** X5: line 47, [frame_delay = 1.0 / max(1, args.fps)], raises
    OverflowError exactly when [--fps] is 2^1024 - 2^970 or more, the ints
    too large for a float; the program then ends there, with the matrix
    constructed, no frame pushed and the display not cleared, whatever
    SIGINT does.  For every smaller [--fps] the delay is a double greater
    than 0 and at most one second, exactly 1.0 for a rate of 1, 0 or less,
    and [main] does not raise. *)
Theorem frame_delay_domain driver args :
  (frame_delay args = None ↔ 2 ^ 1024 - 2 ^ 970 ≤ fps args)
  ∧ (∀ delay, frame_delay args = Some delay →
       (0 < delay)%Q ∧ (delay <= 1)%Q ∧ on_grid delay)
  ∧ (fps args ≤ 1 → frame_delay args = Some 1%Q)
  ∧ (2 ^ 1024 - 2 ^ 970 ≤ fps args →
     ∀ gen (early : bool) sched,
       main driver args gen early sched = Raised [RGBMatrix args])
  ∧ (fps args < 2 ^ 1024 - 2 ^ 970 →
     ∀ gen (early : bool) sched t, main driver args gen early sched ≠ Raised t).
Proof.
  destruct (delay_spec (fps args)) as (Hnone & Hsome & Hone).
  fold (frame_delay args) in Hnone, Hsome, Hone.
  split; [exact Hnone|]. split; [exact Hsome|]. split; [exact Hone|]. split.
  - intros Hbig gen early sched. apply main_raises. by apply Hnone.
  - intros Hsmall gen early sched t.
    destruct (frame_delay args) as [delay|] eqn:Hdelay.
    + rewrite (main_spec _ _ _ _ _ delay Hdelay). cbv zeta.
      by destruct (early || cancelled sched).
    + pose proof (proj1 Hnone eq_refl). lia.
Qed.

Lemma frame_delay_domain_witness :
  main panel4 (args_with_fps (2 ^ 1024)) (constant_rng (1 # 8)) false [false; true]
  = Raised [RGBMatrix (args_with_fps (2 ^ 1024))]
  ∧ frame_delay (args_with_fps (-5)) = Some 1%Q.
Proof.
  split.
  - destruct (frame_delay_domain panel4 (args_with_fps (2 ^ 1024)))
      as (_ & _ & _ & Hraise & _).
    apply Hraise. by vm_compute.
  - destruct (frame_delay_domain panel4 (args_with_fps (-5))) as (_ & _ & Hone & _).
    apply Hone. by vm_compute.
Defined.

(** X6: the loop has no exit of its own: once line 47 has given the frame
    delay, as long as no interrupt arrives the program is still looping, it
    has pushed one frame per iteration and the display has not been
    cleared. *)
Theorem no_exit_without_sigint driver args gen (sched : list bool) delay :
  frame_delay args = Some delay →
  true ∉ sched →
  ∃ fs, main driver args gen false sched
        = Looping (RGBMatrix args :: pushes delay fs)
        ∧ length fs = length sched
        ∧ Clear ∉ events_of (main driver args gen false sched).
Proof.
  intros Hdelay Hquiet. rewrite (main_spec _ _ _ _ _ delay Hdelay). cbv zeta. cbn [orb].
  assert (cancelled sched = false) as ->.
  { apply not_true_is_false. by rewrite cancelled_true. }
  eexists. split; [reflexivity|]. split.
  - rewrite length_frames. by apply iterations_quiet.
  - cbn [events_of]. apply not_elem_of_cons. split; [done | apply not_clear_pushes].
Qed.

Lemma no_exit_without_sigint_witness :
  ∃ fs, main panel4 (args_with_seed (1 # 4)) (constant_rng (1 # 8)) false [false; false; false]
        = Looping (RGBMatrix (args_with_seed (1 # 4)) :: pushes thirtieth fs)
        ∧ length fs = length [false; false; false]
        ∧ Clear ∉ events_of (main panel4 (args_with_seed (1 # 4)) (constant_rng (1 # 8))
                               false [false; false; false]).
Proof.
  apply (no_exit_without_sigint panel4 (args_with_seed (1 # 4)) (constant_rng (1 # 8))
           [false; false; false] thirtieth).
  - vm_compute. reflexivity.
  - rewrite !not_elem_of_cons. repeat split; (discriminate || apply not_elem_of_nil).
Defined.

(** X7: once line 47 has given the frame delay, an interrupt that arrives
    before the first test of the loop leaves nothing on the display (the
    matrix is constructed and cleared, no frame is pushed); and in every
    run, interrupts that arrive after the first one change nothing. *)
Theorem sigint_early_and_repeated driver args gen :
  (∀ delay sched,
     frame_delay args = Some delay →
     main driver args gen true sched = Returned [RGBMatrix args; Clear])
  ∧ (∀ (early : bool) pre post,
       main driver args gen early (pre ++ true :: post)
       = main driver args gen early (pre ++ [true])).
Proof.
  split.
  - intros delay sched Hdelay. by rewrite (main_spec _ _ _ _ _ delay Hdelay).
  - intros early pre post.
    destruct (frame_delay args) as [delay|] eqn:Hdelay.
    + rewrite !(main_spec _ _ _ _ _ delay Hdelay). cbv zeta.
      by rewrite !cancelled_app_true, iterations_first_sigint.
    + by rewrite !main_raises.
Qed.

Lemma sigint_early_and_repeated_witness :
  main panel4 (args_with_seed (1 # 4)) (constant_rng (1 # 8)) true [false; true]
  = Returned [RGBMatrix (args_with_seed (1 # 4)); Clear].
Proof.
  apply (sigint_early_and_repeated panel4 (args_with_seed (1 # 4)) (constant_rng (1 # 8)))
    with (delay := thirtieth).
  vm_compute. reflexivity.
Defined.

(** X8: the neighbour count of a cell is between 0 and 8. *)
Theorem neighbors_range H W (g : Grid) r c n :
  shape H W g → cell (neighbors g) r c = Some n → 0 ≤ n ≤ 8.
Proof.
  intros Hs Hn.
  destruct (cell_in_range H W _ r c n (shape_neighbors H W g Hs) Hn) as [Hr Hc].
  rewrite (neighbors_cell H W) in Hn by done. injection Hn as <-.
  apply (count_live_bounds g (adjacent H W r c)).
Qed.

Lemma neighbors_range_witness : 0 ≤ 3 ≤ 8.
Proof.
  apply (neighbors_range 5 5 blinker 2 1 3); [solve_shape | reflexivity].
Defined.

(** X9: rolls along an axis add up, rolling back undoes a roll, and a roll
    by a multiple of the axis length changes nothing. *)
Theorem roll_group {A} (s t k : Z) (a : list A) :
  roll s (roll t a) = roll (s + t) a
  ∧ roll (- s) (roll s a) = a
  ∧ roll (s + k * Z.of_nat (length a)) a = roll s a.
Proof.
  split; [apply roll_add|]. split; [|apply roll_period].
  rewrite roll_add. replace (- s + s) with 0 by lia. apply roll_0.
Qed.


(** X11: in the camera script, letterbox mode returns a canvas of the
    requested size on which the thumbnail (PIL keeps it within the requested
    size) appears whole and centred: the left and top margins are half of
    the free space, rounded down, and every pixel outside the thumbnail is
    black. *)
Theorem letterbox_centres ImageOps_fit thumbnail img (w h : nat) (mode : string) :
  String.eqb mode "crop" = false →
  cam_to_matrix.wf (thumbnail img w h) →
  (cam_to_matrix.img_width (thumbnail img w h) ≤ w)%nat →
  (cam_to_matrix.img_height (thumbnail img w h) ≤ h)%nat →
  ∃ x y : nat,
    (2 * x ≤ w - cam_to_matrix.img_width (thumbnail img w h) ≤ 2 * x + 1)%nat
    ∧ (2 * y ≤ h - cam_to_matrix.img_height (thumbnail img w h) ≤ 2 * y + 1)%nat
    ∧ cam_to_matrix.wf (cam_to_matrix.fit_frame ImageOps_fit thumbnail img w h mode)
    ∧ cam_to_matrix.img_width (cam_to_matrix.fit_frame ImageOps_fit thumbnail img w h mode) = w
    ∧ cam_to_matrix.img_height (cam_to_matrix.fit_frame ImageOps_fit thumbnail img w h mode) = h
    ∧ (∀ j i px,
         cell (cam_to_matrix.img_data (thumbnail img w h)) j i = Some px →
         cell (cam_to_matrix.img_data
                 (cam_to_matrix.fit_frame ImageOps_fit thumbnail img w h mode))
              (y + j) (x + i) = Some px)
    ∧ (∀ r c, (r < h)%nat → (c < w)%nat →
         ¬ ((y ≤ r < y + cam_to_matrix.img_height (thumbnail img w h))%nat
            ∧ (x ≤ c < x + cam_to_matrix.img_width (thumbnail img w h))%nat) →
         cell (cam_to_matrix.img_data
                 (cam_to_matrix.fit_frame ImageOps_fit thumbnail img w h mode))
              r c = Some [0; 0; 0]).
Proof.
  intros Hmode Hwf Hw Hh.
  set (img2 := thumbnail img w h) in *.
  set (w2 := cam_to_matrix.img_width img2) in *.
  set (h2 := cam_to_matrix.img_height img2) in *.
  exists ((w - w2) / 2)%nat, ((h - h2) / 2)%nat.
  assert ((Z.of_nat w - Z.of_nat w2) / 2 = Z.of_nat ((w - w2) / 2)) as Ex
    by (rewrite Nat2Z.inj_div, Nat2Z.inj_sub by lia; reflexivity).
  assert ((Z.of_nat h - Z.of_nat h2) / 2 = Z.of_nat ((h - h2) / 2)) as Ey
    by (rewrite Nat2Z.inj_div, Nat2Z.inj_sub by lia; reflexivity).
  pose proof (Nat.div_mod_eq (w - w2) 2) as Dx.
  pose proof (Nat.mod_upper_bound (w - w2) 2 ltac:(lia)) as Mx.
  pose proof (Nat.div_mod_eq (h - h2) 2) as Dy.
  pose proof (Nat.mod_upper_bound (h - h2) 2 ltac:(lia)) as My.
  set (x := ((w - w2) / 2)%nat) in *. set (y := ((h - h2) / 2)%nat) in *.
  unfold cam_to_matrix.fit_frame. rewrite Hmode. fold img2 w2 h2. rewrite Ex, Ey.
  assert (cam_to_matrix.wf (cam_to_matrix.new_rgb w h)) as Hcanvas
    by apply shape_replicate.
  split; [lia|]. split; [lia|]. split; [by apply wf_paste|].
  split; [done|]. split; [done|]. split.
  - intros j i px Hpx.
    destruct (cell_in_range h2 w2 _ j i px Hwf Hpx) as [Hj Hi].
    rewrite cell_paste. cbn [cam_to_matrix.new_rgb cam_to_matrix.img_data].
    unfold zeros. rewrite cell_replicate by lia. cbn [fmap option_fmap option_map].
    rewrite decide_True by lia.
    replace (Z.to_nat (Z.of_nat (y + j) - Z.of_nat y)) with j by lia.
    replace (Z.to_nat (Z.of_nat (x + i) - Z.of_nat x)) with i by lia.
    fold img2. by rewrite Hpx.
  - intros r c Hr Hc Hout.
    rewrite cell_paste. cbn [cam_to_matrix.new_rgb cam_to_matrix.img_data].
    unfold zeros. rewrite cell_replicate by lia. cbn [fmap option_fmap option_map].
    f_equal. destruct (decide _) as [[Hj Hi]|_]; [|done].
    fold img2.
    destruct (decide (h2 ≤ Z.to_nat (Z.of_nat r - Z.of_nat y))%nat) as [Hrow|Hrow].
    + by rewrite (cell_None_row h2 w2).
    + rewrite (cell_None_col h2 w2); [done | done | lia].
Qed.

Lemma letterbox_centres_witness :
  ∃ x y : nat,
    (2 * x ≤ 5 - 2 ≤ 2 * x + 1)%nat
    ∧ (2 * y ≤ 4 - 1 ≤ 2 * y + 1)%nat
    ∧ cam_to_matrix.img_data
        (cam_to_matrix.fit_frame keep_size keep_size two_pixels 5 4 "letterbox")
      = [[[0; 0; 0]; [0; 0; 0]; [0; 0; 0]; [0; 0; 0]; [0; 0; 0]];
         [[0; 0; 0]; [10; 20; 30]; [40; 50; 60]; [0; 0; 0]; [0; 0; 0]];
         [[0; 0; 0]; [0; 0; 0]; [0; 0; 0]; [0; 0; 0]; [0; 0; 0]];
         [[0; 0; 0]; [0; 0; 0]; [0; 0; 0]; [0; 0; 0]; [0; 0; 0]]].
Proof.
  destruct (letterbox_centres keep_size keep_size two_pixels 5 4 "letterbox")
    as (x & y & Hx & Hy & _); [reflexivity | solve_shape | simpl; lia | simpl; lia|].
  exists x, y. split; [exact Hx|]. split; [exact Hy|]. reflexivity.
Defined.

(** X12: in the camera script, once line 79 has given the frame budget,
    however the loop is left, by SIGINT or because the camera raises, the
    script clears the matrix and stops the camera, once each and last of
    all; while it is still looping it has done neither.  Both ways out are
    taken: the first failing capture raises, the first SIGINT returns.  But
    line 79 stands before the [try]: when it raises, the camera has been
    started and neither call is made. *)
Theorem camera_cleanup ImageOps_fit thumbnail ImageOps_mirror img_rotate driver args :
  (∀ target,
     cam_to_matrix.target_dt args = Some target →
     (∀ (early : bool) ticks,
        match cam_to_matrix.main ImageOps_fit thumbnail ImageOps_mirror img_rotate driver
                args early ticks with
        | cam_to_matrix.Looping t =>
            (cam_to_matrix.Clear ∉ t) ∧ (cam_to_matrix.Picamera2_stop ∉ t)
        | cam_to_matrix.Returned t | cam_to_matrix.Raised t =>
            ∃ body, t = body ++ [cam_to_matrix.Clear; cam_to_matrix.Picamera2_stop]
                    ∧ (cam_to_matrix.Clear ∉ body)
                    ∧ (cam_to_matrix.Picamera2_stop ∉ body)
        end)
     ∧ (∀ pre tk post,
          Forall quiet pre → cam_to_matrix.capture_array tk = None →
          ∃ t, cam_to_matrix.main ImageOps_fit thumbnail ImageOps_mirror img_rotate driver
                 args false (pre ++ tk :: post)
               = cam_to_matrix.Raised
                   (t ++ [cam_to_matrix.Clear; cam_to_matrix.Picamera2_stop]))
     ∧ (∀ pre tk post,
          Forall quiet pre → is_Some (cam_to_matrix.capture_array tk) →
          cam_to_matrix.sigint tk = true →
          ∃ t, cam_to_matrix.main ImageOps_fit thumbnail ImageOps_mirror img_rotate driver
                 args false (pre ++ tk :: post)
               = cam_to_matrix.Returned
                   (t ++ [cam_to_matrix.Clear; cam_to_matrix.Picamera2_stop])))
  ∧ (cam_to_matrix.target_dt args = None →
     ∀ (early : bool) ticks,
       cam_to_matrix.main ImageOps_fit thumbnail ImageOps_mirror img_rotate driver args
         early ticks
       = cam_to_matrix.Raised
           [cam_to_matrix.RGBMatrix args; cam_to_matrix.Picamera2_start;
            cam_to_matrix.Sleep (double (1 # 5))]).
Proof.
  split; [|intros Hnone early ticks; unfold cam_to_matrix.main; by rewrite Hnone].
  intros target Htarget. split; [|split].
  - intros early ticks. unfold cam_to_matrix.main. rewrite Htarget.
    destruct (run_loop_events ImageOps_fit thumbnail ImageOps_mirror img_rotate driver args
                target ticks (negb early)
                [cam_to_matrix.RGBMatrix args; cam_to_matrix.Picamera2_start;
                 cam_to_matrix.Sleep (double (1 # 5))]) as (more & E & Hmore).
    assert (∀ e, e ∈ [cam_to_matrix.RGBMatrix args; cam_to_matrix.Picamera2_start;
                      cam_to_matrix.Sleep (double (1 # 5))] ++ more →
                 e ≠ cam_to_matrix.Clear ∧ e ≠ cam_to_matrix.Picamera2_stop) as Hnone.
    { intros e He. apply elem_of_app in He as [He|He].
      - rewrite !elem_of_cons in He. destruct He as [->|[->|[->|He]]]; try done.
        by apply elem_of_nil in He.
      - rewrite Forall_forall in Hmore. specialize (Hmore e He).
        by destruct e. }
    destruct (cam_to_matrix.run_loop _ _ _ _ _ _ _ _ _ _) as [t|t|t];
      cbn [cam_to_matrix.events_of] in E; subst t; cbn [cam_to_matrix.finally].
    + eexists. split; [done|]. split; intros Hin; by destruct (Hnone _ Hin).
    + eexists. split; [done|]. split; intros Hin; by destruct (Hnone _ Hin).
    + split; intros Hin; by destruct (Hnone _ Hin).
  - intros pre tk post Hpre Hfail. unfold cam_to_matrix.main. rewrite Htarget.
    destruct (run_loop_raises ImageOps_fit thumbnail ImageOps_mirror img_rotate driver args
                target pre tk post
                [cam_to_matrix.RGBMatrix args; cam_to_matrix.Picamera2_start;
                 cam_to_matrix.Sleep (double (1 # 5))] Hpre Hfail) as [t Ht].
    cbn [negb]. rewrite Ht. cbn [cam_to_matrix.finally]. eauto.
  - intros pre tk post Hpre Hok Hsig. unfold cam_to_matrix.main. rewrite Htarget.
    destruct (run_loop_returns ImageOps_fit thumbnail ImageOps_mirror img_rotate driver args
                target pre tk post
                [cam_to_matrix.RGBMatrix args; cam_to_matrix.Picamera2_start;
                 cam_to_matrix.Sleep (double (1 # 5))] Hpre Hok Hsig) as [t Ht].
    cbn [negb]. rewrite Ht. cbn [cam_to_matrix.finally]. eauto.
Qed.

Lemma camera_cleanup_witness :
  (∃ t, cam_to_matrix.main keep_size keep_size id (λ _, id) panel5x4 camera_defaults false
          ([cam_to_matrix.mkTick (Some two_pixels) (1 # 128) false]
           ++ cam_to_matrix.mkTick None (1 # 128) false :: [])
        = cam_to_matrix.Raised (t ++ [cam_to_matrix.Clear; cam_to_matrix.Picamera2_stop]))
  ∧ (∃ t, cam_to_matrix.main keep_size keep_size id (λ _, id) panel5x4 camera_defaults false
            ([cam_to_matrix.mkTick (Some two_pixels) (1 # 128) false]
             ++ cam_to_matrix.mkTick (Some two_pixels) (1 # 128) true :: [])
          = cam_to_matrix.Returned (t ++ [cam_to_matrix.Clear; cam_to_matrix.Picamera2_stop])).
Proof.
  destruct (camera_cleanup keep_size keep_size id (λ _, id) panel5x4 camera_defaults)
    as [Hloop _].
  destruct (Hloop thirtieth) as (_ & Hraise & Hret); [vm_compute; reflexivity|].
  split.
  - apply Hraise; [|reflexivity].
    repeat constructor. by eexists.
  - apply Hret; [|by eexists | reflexivity].
    repeat constructor. by eexists.
Defined.

(** X13: in the camera script, line 79 raises OverflowError exactly when
    [--fps-limit] is 2^1024 - 2^970 or more; otherwise the frame budget is a
    double greater than 0 and at most one second.  And [time.sleep] is never
    asked for a zero or negative time, which would make it return at once or
    raise ValueError: whatever doubles the clock shows, also a time that
    went backwards, the warm-up sleep and every sleep of the limiter are
    positive. *)
Theorem limiter_sleeps_positive ImageOps_fit thumbnail ImageOps_mirror img_rotate driver
    args :
  (cam_to_matrix.target_dt args = None ↔ 2 ^ 1024 - 2 ^ 970 ≤ cam_to_matrix.fps_limit args)
  ∧ (∀ target, cam_to_matrix.target_dt args = Some target →
       (0 < target)%Q ∧ (target <= 1)%Q)
  ∧ (∀ (early : bool) ticks,
       Forall (λ tk, on_grid (cam_to_matrix.dt tk)) ticks →
       Forall positive_sleep
         (cam_to_matrix.events_of
            (cam_to_matrix.main ImageOps_fit thumbnail ImageOps_mirror img_rotate driver
               args early ticks))).
Proof.
  destruct (delay_spec (cam_to_matrix.fps_limit args)) as (Hnone & Hsome & _).
  fold (cam_to_matrix.target_dt args) in Hnone, Hsome.
  assert (Forall positive_sleep
            [cam_to_matrix.RGBMatrix args; cam_to_matrix.Picamera2_start;
             cam_to_matrix.Sleep (double (1 # 5))]) as Hstart.
  { constructor; [exact I|]. constructor; [exact I|].
    constructor; [by vm_compute | constructor]. }
  split; [exact Hnone|]. split.
  - intros target Htarget. destruct (Hsome target Htarget) as (? & ? & _). by split.
  - intros early ticks Hticks. unfold cam_to_matrix.main.
    destruct (cam_to_matrix.target_dt args) as [target|] eqn:Htarget; [|exact Hstart].
    destruct (Hsome target eq_refl) as (_ & _ & Hgrid).
    pose proof (run_loop_positive ImageOps_fit thumbnail ImageOps_mirror img_rotate driver
                  args target Hgrid ticks (negb early) _ Hticks Hstart) as Hrun.
    destruct (cam_to_matrix.run_loop _ _ _ _ _ _ _ _ _ _) as [t|t|t];
      cbn [cam_to_matrix.finally cam_to_matrix.events_of] in *; [| |done].
    + apply Forall_app. split; [done | repeat constructor].
    + apply Forall_app. split; [done | repeat constructor].
Qed.

Lemma limiter_sleeps_positive_witness :
  Forall positive_sleep
    (cam_to_matrix.events_of
       (cam_to_matrix.main keep_size keep_size id (λ _, id) panel5x4 camera_defaults false
          [cam_to_matrix.mkTick (Some two_pixels) (1 # 128) false;
           cam_to_matrix.mkTick (Some two_pixels) (- (1 # 4)) false;
           cam_to_matrix.mkTick (Some two_pixels) (1 # 2) true])).
Proof.
  destruct (limiter_sleeps_positive keep_size keep_size id (λ _, id) panel5x4
              camera_defaults) as (_ & _ & Hpos).
  apply Hpos. repeat constructor; cbn.
  - exists (2 ^ 1067). by vm_compute.
  - exists (- 2 ^ 1072). by vm_compute.
  - exists (2 ^ 1073). by vm_compute.
Defined.
